(** * Force-directed 3D layout: [calculate_positions.py]

    A shallow embedding of [force_directed_3d] and [normalize_positions]
    and the properties of the layout engine proved about them.

    Numbers.  The script computes with Python floats and numpy [float64]
    arrays.  They are read here as real numbers ([R]): every arithmetic
    operation is the exact one.  The two ways a division can go wrong are
    kept apart, as the interpreter keeps them apart:
    - a division of Python scalars by zero raises [ZeroDivisionError];
    - a division of numpy values by zero raises nothing and yields [inf]
      or [nan]; no real number stands for that, and the model stops with
      [NonFinite].

    Randomness.  [np.random.randn(n, 3)] fills its rows from the stream of
    the generator; the stream is an argument, [sample i] being row [i]. *)

From Stdlib Require Import Reals Lra Lia ZArith.
From stdpp Require Import gmap strings list pretty.

(** ** Results of a run *)

Inductive exn : Type :=
| ZeroDivisionError
| ValueError
| IndexError.

Inductive outcome (A : Type) : Type :=
| Ok (a : A)
| Raise (e : exn)
| NonFinite.

Arguments Ok {A} a.
Arguments Raise {A} e.
Arguments NonFinite {A}.

Definition bind {A B : Type} (m : outcome A) (f : A -> outcome B) : outcome B :=
  match m with
  | Ok a => f a
  | Raise e => Raise e
  | NonFinite => NonFinite
  end.

Notation "'let*' x ':=' m 'in' k" := (bind m (fun x => k))
  (at level 10, x name, m at level 200, k at level 200).

(** A [for] loop whose body may stop the run. *)
Fixpoint for_each {A S : Type} (body : A -> S -> outcome S) (xs : list A) (s : S)
  : outcome S :=
  match xs with
  | [] => Ok s
  | x :: xs' => let* s' := body x s in for_each body xs' s'
  end.

(** ** Vectors of three coordinates (one row of an [(n, 3)] array) *)

Record Vec3 : Type := mkVec { vx : R; vy : R; vz : R }.

Definition vzero : Vec3 := mkVec 0 0 0.

Global Instance Vec3_inhabited : Inhabited Vec3 := populate vzero.

Definition vadd (a b : Vec3) : Vec3 :=
  mkVec (vx a + vx b) (vy a + vy b) (vz a + vz b).

Definition vsub (a b : Vec3) : Vec3 :=
  mkVec (vx a - vx b) (vy a - vy b) (vz a - vz b).

Definition vscale (a : Vec3) (s : R) : Vec3 :=
  mkVec (vx a * s) (vy a * s) (vz a * s).

Definition vdot (a b : Vec3) : R :=
  (vx a * vx b + vy a * vy b + vz a * vz b)%R.

(** [np.linalg.norm] of a row. *)
Definition norm (a : Vec3) : R :=
  sqrt (vx a * vx a + vy a * vy a + vz a * vz a).

(** Division of numpy values: no exception, and no real result when the
    divisor is zero. *)
Definition np_div (x y : R) : outcome R :=
  if Req_dec_T y 0 then NonFinite else Ok (x / y)%R.

Definition np_vdiv (a : Vec3) (s : R) : outcome Vec3 :=
  let* x := np_div (vx a) s in
  let* y := np_div (vy a) s in
  let* z := np_div (vz a) s in
  Ok (mkVec x y z).

(** Division of Python scalars ([/] on [int] and [float]). *)
Definition py_div (x y : R) : outcome R :=
  if Req_dec_T y 0 then Raise ZeroDivisionError else Ok (x / y)%R.

(** ** Arrays: indexing and in-place update of a row *)

Definition get_row (a : list Vec3) (i : nat) : outcome Vec3 :=
  match a !! i with
  | Some v => Ok v
  | None => Raise IndexError
  end.

(** [a[i] += v] *)
Definition iadd_row (a : list Vec3) (i : nat) (v : Vec3) : outcome (list Vec3) :=
  let* r := get_row a i in Ok (<[i := vadd r v]> a).

(** [a[i] -= v] *)
Definition isub_row (a : list Vec3) (i : nat) (v : Vec3) : outcome (list Vec3) :=
  let* r := get_row a i in Ok (<[i := vsub r v]> a).

(** ** The graph as the loader hands it over *)

Record Node : Type := mkNode { node_id : string }.

Record Edge : Type := mkEdge { source : string; target : string; weight : R }.

(** [{node['id']: i for i, node in enumerate(nodes)}] *)
Definition id_to_idx (nodes : list Node) : gmap string nat :=
  fold_left (fun m p => <[node_id p.2 := p.1]> m)
            (zip (seq 0 (length nodes)) nodes) ∅.

(** The loop that turns edges into index pairs, with its two lists. *)
Definition resolve_step (idx : gmap string nat)
    (acc : list (nat * nat) * list R) (edge : Edge) : list (nat * nat) * list R :=
  match idx !! source edge, idx !! target edge with
  | Some source_idx, Some target_idx =>
      (acc.1 ++ [(source_idx, target_idx)], acc.2 ++ [weight edge])
  | _, _ => acc
  end.

Definition resolve_edges (idx : gmap string nat) (edges : list Edge)
  : list (nat * nat) * list R :=
  fold_left (resolve_step idx) edges ([], []).

(** [max(edge_weights) if edge_weights else 1] *)
Definition max_of (ws : list R) : R :=
  match ws with
  | [] => 1%R
  | w :: ws' => fold_left Rmax ws' w
  end.

(** [[w / max_weight for w in edge_weights]] *)
Fixpoint normalize_weights (ws : list R) (max_weight : R) : outcome (list R) :=
  match ws with
  | [] => Ok []
  | w :: ws' =>
      let* q := py_div w max_weight in
      let* qs := normalize_weights ws' max_weight in
      Ok (q :: qs)
  end.

(** ** One simulation step *)

Section Step.

Local Open Scope R_scope.

(** [k], the node count and the retained edges are fixed before the
    loop starts. *)
Variable k : R.
Variable n : nat.
Variable edge_pairs : list (nat * nat).
Variable edge_weights : list R.

(** Body of the inner repulsion loop, for the pair [(i, j)]. *)
Definition repulse_pair (positions : list Vec3) (i j : nat)
    (displacements : list Vec3) : outcome (list Vec3) :=
  let* p_i := get_row positions i in
  let* p_j := get_row positions j in
  let delta := vsub p_i p_j in
  let distance := norm delta in
  if Rlt_dec 0 distance then
    let* force := np_div (k * k) distance in
    let* direction := np_vdiv delta distance in
    let* displacements := iadd_row displacements i (vscale direction force) in
    isub_row displacements j (vscale direction force)
  else Ok displacements.

(** [for i in range(n): for j in range(i + 1, n): ...] *)
Definition repulsion (positions displacements : list Vec3) : outcome (list Vec3) :=
  for_each
    (fun i ds =>
       for_each (repulse_pair positions i) (seq (i + 1) (n - (i + 1))) ds)
    (seq 0 n) displacements.

(** Body of the attraction loop, for one retained edge. *)
Definition attract_edge (positions : list Vec3) (e : nat * nat * R)
    (displacements : list Vec3) : outcome (list Vec3) :=
  let '(i, j, weight) := e in
  let* p_j := get_row positions j in
  let* p_i := get_row positions i in
  let delta := vsub p_j p_i in
  let distance := norm delta in
  if Rlt_dec 0 distance then
    let* q := np_div (distance * distance) k in
    let force := q * (0.5 + 0.5 * weight) in
    let* direction := np_vdiv delta distance in
    let* displacements := iadd_row displacements i (vscale direction force) in
    isub_row displacements j (vscale direction force)
  else Ok displacements.

(** [for (i, j), weight in zip(edge_pairs, edge_weights): ...] *)
Definition attraction (positions displacements : list Vec3) : outcome (list Vec3) :=
  for_each (attract_edge positions) (zip edge_pairs edge_weights) displacements.

(** The displacement field of one step: [np.zeros((n, 3))], then the
    two force loops. *)
Definition compute_displacements (positions : list Vec3) : outcome (list Vec3) :=
  let displacements := replicate n vzero in
  let* displacements := repulsion positions displacements in
  attraction positions displacements.

(** Body of the loop that applies the displacements. *)
Definition move_node (temperature : R) (displacements : list Vec3) (i : nat)
    (positions : list Vec3) : outcome (list Vec3) :=
  let* d := get_row displacements i in
  let displacement_length := norm d in
  if Rlt_dec 0 displacement_length then
    let* unit := np_vdiv d displacement_length in
    iadd_row positions i (vscale unit (Rmin displacement_length temperature))
  else Ok positions.

Definition apply_displacements (temperature : R) (displacements positions : list Vec3)
  : outcome (list Vec3) :=
  for_each (move_node temperature displacements) (seq 0 n) positions.

(** One pass of the body of [for iteration in range(iterations)]; the
    state is the position array and the temperature. *)
Definition step (st : list Vec3 * R) : outcome (list Vec3 * R) :=
  let '(positions, temperature) := st in
  let* displacements := compute_displacements positions in
  let* positions := apply_displacements temperature displacements positions in
  Ok (positions, temperature * 0.98).

Fixpoint iterate (t : nat) (st : list Vec3 * R) : outcome (list Vec3 * R) :=
  match t with
  | O => Ok st
  | S t' => let* st' := step st in iterate t' st'
  end.

End Step.

(** ** The two functions of the script *)

Definition area : R := 100.
Definition initial_temperature : R := 10.

Definition initial_positions (sample : nat -> Vec3) (n : nat) : list Vec3 :=
  map (fun i => vscale (sample i) 5) (seq 0 n).

(** The state after the loop of [force_directed_3d] has run; [iterations]
    is a Python [int], and [range] of a negative one is empty. *)
Definition simulate (sample : nat -> Vec3) (nodes : list Node) (edges : list Edge)
    (iterations : Z) : outcome (list Vec3 * R) :=
  let n := length nodes in
  let positions := initial_positions sample n in
  let idx := id_to_idx nodes in
  let '(edge_pairs, edge_weights) := resolve_edges idx edges in
  let max_weight := max_of edge_weights in
  let* edge_weights := normalize_weights edge_weights max_weight in
  let* q := py_div area (INR n) in
  let k := sqrt q in
  iterate k n edge_pairs edge_weights (Z.to_nat iterations)
          (positions, initial_temperature).

Definition force_directed_3d (sample : nat -> Vec3) (nodes : list Node)
    (edges : list Edge) (iterations : Z) : outcome (list Vec3) :=
  let* st := simulate sample nodes edges iterations in
  Ok st.1.

(** [np.max] of a flattened array; it raises on an empty one. *)
Definition np_max (xs : list R) : outcome R :=
  match xs with
  | [] => Raise ValueError
  | x :: xs' => Ok (fold_left Rmax xs' x)
  end.

(** The coordinates of an [(n, 3)] array in row-major order. *)
Definition coords (positions : list Vec3) : list R :=
  flat_map (fun v => [vx v; vy v; vz v]) positions.

Definition normalize_positions (positions : list Vec3) (target_range : R)
  : outcome (list Vec3) :=
  let* max_coord := np_max (map Rabs (coords positions)) in
  if Rlt_dec 0 max_coord then
    let* scale_factor := np_div target_range max_coord in
    Ok (map (fun v => vscale v scale_factor) positions)
  else Ok positions.

(** Steps 2 and 3 of [main]: 500 iterations, then the range of 15. *)
Definition layout (sample : nat -> Vec3) (nodes : list Node) (edges : list Edge)
  : outcome (list Vec3) :=
  let* positions := force_directed_3d sample nodes edges 500 in
  normalize_positions positions 15.

(** ** The forces, as sums

    The displacement field as the description of the layout words it: a
    sum of pairwise forces.  The loops above are compared with it. *)

(** Every unordered pair of distinct nodes, once: [(i, j)] with [i < j < n]. *)
Definition pairs (n : nat) : list (nat * nat) :=
  flat_map (fun i => map (pair i) (seq (i + 1) (n - (i + 1)))) (seq 0 n).

Definition vsum (vs : list Vec3) : Vec3 := foldr vadd vzero vs.

(** A force [f] exerted on the pair [(i, j)], seen from node [v]: [+f] at
    [i], [-f] at [j]. *)
Definition contrib (v i j : nat) (f : Vec3) : Vec3 :=
  vsub (if decide (v = i) then f else vzero) (if decide (v = j) then f else vzero).

Definition repulsive_force (k : R) (positions : list Vec3) (i j : nat) : Vec3 :=
  let delta := vsub (positions !!! i) (positions !!! j) in
  let distance := norm delta in
  if Rlt_dec 0 distance
  then vscale (vscale delta (/ distance)) (k * k / distance)
  else vzero.

Definition attractive_force (k : R) (positions : list Vec3) (i j : nat) (w : R) : Vec3 :=
  let delta := vsub (positions !!! j) (positions !!! i) in
  let distance := norm delta in
  if Rlt_dec 0 distance
  then vscale (vscale delta (/ distance))
              (distance * distance / k * (0.5 + 0.5 * w))
  else vzero.

Definition net_force (k : R) (positions : list Vec3) (es : list (nat * nat * R))
    (v : nat) : Vec3 :=
  vadd
    (vsum (map (fun p => contrib v p.1 p.2 (repulsive_force k positions p.1 p.2))
               (pairs (length positions))))
    (vsum (map (fun e => contrib v e.1.1 e.1.2
                           (attractive_force k positions e.1.1 e.1.2 e.2))
               es)).

(** The move of a node with accumulated displacement [d] at temperature
    [temperature]. *)
Definition move (temperature : R) (d : Vec3) : Vec3 :=
  if Rlt_dec 0 (norm d)
  then vscale (vscale d (/ norm d)) (Rmin (norm d) temperature)
  else vzero.

(** [ds'] is [ds] with [g v] added to row [v], for every row. *)
Definition accumulates (g : nat -> Vec3) (ds ds' : list Vec3) : Prop :=
  length ds' = length ds /\
  forall v, v < length ds -> ds' !!! v = vadd (ds !!! v) (g v).

(** Every retained edge joins two rows of the position array. *)
Definition in_range (n : nat) (edge_pairs : list (nat * nat)) : Prop :=
  Forall (fun p => p.1 < n /\ p.2 < n) edge_pairs.

(** ** Edge resolution, edge by edge *)

(** The triple an edge is retained as, if it is retained. *)
Definition resolve_edge (idx : gmap string nat) (edge : Edge) : option (nat * nat * R) :=
  match idx !! source edge, idx !! target edge with
  | Some source_idx, Some target_idx => Some (source_idx, target_idx, weight edge)
  | _, _ => None
  end.

Definition retained (nodes : list Node) (edges : list Edge) : list (nat * nat * R) :=
  omap (resolve_edge (id_to_idx nodes)) edges.

(** [s] is the id of some input node. *)
Definition known (nodes : list Node) (s : string) : Prop :=
  s ∈ map node_id nodes.

Global Instance known_dec nodes s : Decision (known nodes s).
Proof. unfold known. apply _. Defined.

(** Both ids of the edge are ids of input nodes. *)
Definition resolvable (nodes : list Node) (edge : Edge) : bool :=
  bool_decide (known nodes (source edge)) && bool_decide (known nodes (target edge)).


(** ** Definitions used to state further properties *)

(** The same edge, written from its other end. *)
Definition reverse_edge (e : Edge) : Edge :=
  mkEdge (target e) (source e) (weight e).

(** Every row moved by the vector [c]. *)
Definition translate (c : Vec3) (positions : list Vec3) : list Vec3 :=
  map (fun p => vadd p c) positions.

(** A function applied to the result of a run that returns. *)
Definition on_result {A B : Type} (f : A -> B) (m : outcome A) : outcome B :=
  let* a := m in Ok (f a).

(** ** [main] of [calculate_positions.py], from the loaded graph on

    The body of [main] between reading [lotr_graph.json] and writing
    [lotr_positioned.json]: the layout, the positions attached to the
    nodes, and the statistics.  What is printed is left out, and so are the
    lines that print the [label] of six named characters (node records are
    taken to carry it).  Every exception of the body is caught by
    [except Exception] and becomes the return value [1]; besides those of
    the layout there is the [StopIteration] of [next] on a generator that
    finds no node. *)

Inductive main_result (A : Type) : Type :=
| Finished (a : A)
| Caught (e : exn)
| CaughtStopIteration
| NotReal.

Arguments Finished {A} a.
Arguments Caught {A} e.
Arguments CaughtStopIteration {A}.
Arguments NotReal {A}.

Definition lift {A : Type} (m : outcome A) : main_result A :=
  match m with
  | Ok a => Finished a
  | Raise e => Caught e
  | NonFinite => NotReal
  end.

Definition and_then {A B : Type} (m : main_result A) (f : A -> main_result B)
  : main_result B :=
  match m with
  | Finished a => f a
  | Caught e => Caught e
  | CaughtStopIteration => CaughtStopIteration
  | NotReal => NotReal
  end.

(** [for i, node in enumerate(nodes): node['x'] = float(positions[i, 0]) ...],
    from index [i] on. *)
Fixpoint attach (nodes : list Node) (i : nat) (positions : list Vec3)
  : outcome (list (Node * Vec3)) :=
  match nodes with
  | [] => Ok []
  | node :: rest =>
      let* p := get_row positions i in
      let* placed := attach rest (S i) positions in
      Ok ((node, p) :: placed)
  end.

(** [min] and [max] of a list of numbers; both raise on an empty list. *)
Definition py_min (xs : list R) : outcome R :=
  match xs with
  | [] => Raise ValueError
  | x :: xs' => Ok (fold_left Rmin xs' x)
  end.

Definition py_max (xs : list R) : outcome R :=
  match xs with
  | [] => Raise ValueError
  | x :: xs' => Ok (fold_left Rmax xs' x)
  end.

Definition coordinate_range (cs : list R) : outcome (R * R) :=
  let* lo := py_min cs in
  let* hi := py_max cs in
  Ok (lo, hi).

(** [next(n for n in nodes if n['id'] == s)] *)
Definition first_with_id (placed : list (Node * Vec3)) (s : string)
  : main_result (Node * Vec3) :=
  match find (fun np => bool_decide (node_id np.1 = s)) placed with
  | Some np => Finished np
  | None => CaughtStopIteration
  end.

(** The length of one edge in the final embedding. *)
Definition edge_distance (placed : list (Node * Vec3)) (edge : Edge) : main_result R :=
  and_then (first_with_id placed (source edge)) (fun s =>
  and_then (first_with_id placed (target edge)) (fun t =>
  Finished (sqrt ((vx s.2 - vx t.2) * (vx s.2 - vx t.2)
                  + (vy s.2 - vy t.2) * (vy s.2 - vy t.2)
                  + (vz s.2 - vz t.2) * (vz s.2 - vz t.2))))).

Fixpoint connected_distances (placed : list (Node * Vec3)) (edges : list Edge)
  : main_result (list R) :=
  match edges with
  | [] => Finished []
  | edge :: rest =>
      and_then (edge_distance placed edge) (fun dist =>
      and_then (connected_distances placed rest) (fun dists =>
      Finished (dist :: dists)))
  end.

Definition rsum (xs : list R) : R := foldr Rplus 0%R xs.

(** [np.mean] of a non-empty list. *)
Definition mean (xs : list R) : R := (rsum xs / INR (length xs))%R.

Record Report : Type := mkReport {
  positioned : list (Node * Vec3);
  x_range : R * R;
  y_range : R * R;
  z_range : R * R;
  average_edge_length : R;
  min_edge_length : R;
  max_edge_length : R
}.

(** The edge statistics.  On an empty list [np.mean] only warns and yields
    [nan], which is printed; the [min] of the next line raises. *)
Definition edge_statistics (dists : list R) : outcome (R * R * R) :=
  let* shortest := py_min dists in
  let* longest := py_max dists in
  Ok (mean dists, shortest, longest).

Definition main_report (sample : nat -> Vec3) (nodes : list Node) (edges : list Edge)
  : main_result Report :=
  and_then (lift (force_directed_3d sample nodes edges 500)) (fun positions =>
  and_then (lift (normalize_positions positions 15)) (fun positions =>
  and_then (lift (attach nodes 0 positions)) (fun placed =>
  and_then (lift (coordinate_range (map (fun np => vx np.2) placed))) (fun xr =>
  and_then (lift (coordinate_range (map (fun np => vy np.2) placed))) (fun yr =>
  and_then (lift (coordinate_range (map (fun np => vz np.2) placed))) (fun zr =>
  and_then (connected_distances placed edges) (fun dists =>
  and_then (lift (edge_statistics dists)) (fun stats =>
  Finished (mkReport placed xr yr zr stats.1.1 stats.1.2 stats.2))))))))).

(** The value [main] returns; there is none when the run has left the
    real numbers. *)
Definition main (sample : nat -> Vec3) (nodes : list Node) (edges : list Edge)
  : option Z :=
  match main_report sample nodes edges with
  | Finished _ => Some 0%Z
  | Caught _ | CaughtStopIteration => Some 1%Z
  | NotReal => None
  end.

(** ** [data_processor.py]

    The script that writes the graph [calculate_positions.py] reads.  A
    table is the list of its rows; a missing [gender] is [None]; the
    columns [FreqSum] and [Weight] hold integers.  Reading the CSV files and
    writing the JSON file are left out. *)

Module data_processor.

Record OntologyRow : Type := mkOntologyRow {
  col_id : string;
  col_type : string;
  col_Label : string;
  col_subtype : string;
  col_gender : option string;
  col_FreqSum : Z
}.

Record NetworkRow : Type := mkNetworkRow {
  col_IdSource : string;
  col_IdTarget : string;
  col_Weight : Z
}.

Definition RACE_COLORS : gmap string string :=
  list_to_map
    [("men", "#7A84DD"); ("elves", "#8ACAE5"); ("hobbit", "#BD9267");
     ("dwarf", "#B15B60"); ("ainur", "#3A7575"); ("ents", "#E3845D");
     ("orcs", "#020104"); ("animal", "#8ACAE5")].

(** [ontology[ontology['type'] == 'per']] *)
Definition filter_persons (ontology : list OntologyRow) : list OntologyRow :=
  filter (fun row => col_type row = "per") ontology.

(** [network[network['IdSource'].isin(node_ids) & network['IdTarget'].isin(node_ids)]] *)
Definition filter_edges (network : list NetworkRow) (node_ids : list string)
  : list NetworkRow :=
  filter (fun row => col_IdSource row ∈ node_ids /\ col_IdTarget row ∈ node_ids) network.

Record GraphNode : Type := mkGraphNode {
  id : string;
  label : string;
  race : string;
  gender : string;
  node_weight : Z;
  size : R;
  color : string
}.

Record Link : Type := mkLink {
  link_source : string;
  link_target : string;
  link_weight : Z;
  link_label : string
}.

Definition create_nodes_json (persons_df : list OntologyRow) : list GraphNode :=
  map (fun row =>
         mkGraphNode (col_id row) (col_Label row) (col_subtype row)
                     (default "unknown" (col_gender row))
                     (col_FreqSum row)
                     (Rmax 10 (IZR (col_FreqSum row) / 40))
                     (default "#7A84DD" (RACE_COLORS !! col_subtype row)))
      persons_df.

Definition create_edges_json (edges_df : list NetworkRow) : list Link :=
  map (fun row =>
         mkLink (col_IdSource row) (col_IdTarget row) (col_Weight row)
                (pretty (col_Weight row) +:+ " co-appearances"))
      edges_df.

Record Strongest : Type := mkStrongest { character : string; strongest_weight : Z }.

Record StatNode : Type := mkStatNode {
  stat_node : GraphNode;
  total_connections : nat;
  strongest_connection : option Strongest
}.

(** [[e for e in edges if e['source'] == node_id or e['target'] == node_id]] *)
Definition connections (edges : list Link) (node_id : string) : list Link :=
  filter (fun e => link_source e = node_id \/ link_target e = node_id) edges.

(** [max(connections, key=lambda x: x['weight'])], started at its first
    element: a later element replaces the best one only when it is
    strictly heavier. *)
Definition heaviest (first : Link) (rest : list Link) : Link :=
  fold_left (fun best e => if (link_weight best <? link_weight e)%Z then e else best)
            rest first.

(** [next((n['label'] for n in nodes if n['id'] == partner_id), 'Unknown')] *)
Definition partner_name (nodes : list GraphNode) (partner_id : string) : string :=
  match find (fun n => bool_decide (id n = partner_id)) nodes with
  | Some n => label n
  | None => "Unknown"
  end.

(** The body of the loop of [calculate_node_stats] for one node. *)
Definition node_stats (nodes : list GraphNode) (edges : list Link) (node : GraphNode)
  : StatNode :=
  let node_id := id node in
  match connections edges node_id with
  | [] => mkStatNode node 0 None
  | first :: rest =>
      let strongest := heaviest first rest in
      let partner_id :=
        if decide (link_source strongest = node_id)
        then link_target strongest
        else link_source strongest in
      mkStatNode node (length (first :: rest))
                 (Some (mkStrongest (partner_name nodes partner_id)
                                    (link_weight strongest)))
  end.

Definition calculate_node_stats (nodes : list GraphNode) (edges : list Link)
  : list StatNode :=
  map (node_stats nodes edges) nodes.

Record Combined : Type := mkCombined {
  node_count : nat;
  edge_count : nat;
  max_edge_weight : Z;
  races : gset string;
  nodes : list StatNode;
  links : list Link
}.

(** [max(e['weight'] for e in edges) if edges else 1] *)
Definition max_weight (edges : list Link) : Z :=
  match edges with
  | [] => 1%Z
  | e :: rest => fold_left Z.max (map link_weight rest) (link_weight e)
  end.

(** [main], from the two loaded tables to the record it writes and
    returns; the set of races is a set, the order of [list(set(...))]
    being unspecified. *)
Definition main (ontology : list OntologyRow) (network : list NetworkRow) : Combined :=
  let persons := filter_persons ontology in
  let person_ids := map col_id persons in
  let edges_filtered := filter_edges network person_ids in
  let nodes := create_nodes_json persons in
  let edges := create_edges_json edges_filtered in
  let nodes := calculate_node_stats nodes edges in
  mkCombined (length nodes) (length edges) (max_weight edges)
             (list_to_set (map (fun n => race (stat_node n)) nodes))
             nodes edges.

End data_processor.

(** What [calculate_positions.py] reads of the file [data_processor.py]
    writes: the [id] of each node, and [source], [target] and [weight] of
    each link. *)
Definition loaded_nodes (c : data_processor.Combined) : list Node :=
  map (fun n => mkNode (data_processor.id (data_processor.stat_node n)))
      (data_processor.nodes c).

Definition loaded_edges (c : data_processor.Combined) : list Edge :=
  map (fun l => mkEdge (data_processor.link_source l) (data_processor.link_target l)
                       (IZR (data_processor.link_weight l)))
      (data_processor.links c).

(** ** Vectors *)

Lemma vec_ext (a b : Vec3) :
  vx a = vx b -> vy a = vy b -> vz a = vz b -> a = b.
Proof. destruct a, b; simpl; intros -> -> ->; reflexivity. Qed.

Ltac vec :=
  apply vec_ext; unfold vadd, vsub, vscale, vzero; simpl;
  try lra; try (field; assumption).

Lemma vadd_zero_r a : vadd a vzero = a.
Proof. vec. Qed.

Lemma vadd_zero_l a : vadd vzero a = a.
Proof. vec. Qed.

Lemma vadd_assoc a b c : vadd a (vadd b c) = vadd (vadd a b) c.
Proof. vec. Qed.

Lemma vadd_comm a b : vadd a b = vadd b a.
Proof. vec. Qed.

Lemma vsub_self a : vsub a a = vzero.
Proof. vec. Qed.

Lemma vscale_zero s : vscale vzero s = vzero.
Proof. vec. Qed.

Lemma norm_zero : norm vzero = 0%R.
Proof. unfold norm; simpl. rewrite Rmult_0_l, !Rplus_0_l. apply sqrt_0. Qed.

Lemma norm_nonneg a : (0 <= norm a)%R.
Proof. apply sqrt_pos. Qed.

Lemma norm_sqr a : (norm a * norm a = vdot a a)%R.
Proof. unfold norm, vdot. apply sqrt_sqrt. nra. Qed.

Lemma norm_vscale a s : norm (vscale a s) = (Rabs s * norm a)%R.
Proof.
  unfold norm, vscale; simpl.
  replace (vx a * s * (vx a * s) + vy a * s * (vy a * s) + vz a * s * (vz a * s))%R
    with (s * s * (vx a * vx a + vy a * vy a + vz a * vz a))%R by ring.
  rewrite sqrt_mult_alt by nra.
  f_equal. replace (s * s)%R with (Rsqr s) by reflexivity. apply sqrt_Rsqr_abs.
Qed.

Lemma vsum_app xs ys : vsum (xs ++ ys) = vadd (vsum xs) (vsum ys).
Proof.
  induction xs as [|x xs IH]; simpl.
  - symmetry; apply vadd_zero_l.
  - fold (vsum (xs ++ ys)). rewrite IH. fold (vsum xs). apply vadd_assoc.
Qed.

Lemma vsum_zero {A} (f : A -> Vec3) (xs : list A) :
  (forall x, x ∈ xs -> f x = vzero) -> vsum (map f xs) = vzero.
Proof.
  induction xs as [|x xs IH]; simpl; intros H; [reflexivity|].
  fold (vsum (map f xs)). rewrite H by left. rewrite IH; [apply vadd_zero_l|].
  intros y Hy. apply H. right. exact Hy.
Qed.

Lemma vsum_flat_map {A B} (f : B -> Vec3) (g : A -> list B) (xs : list A) :
  vsum (map f (flat_map g xs)) = vsum (map (fun x => vsum (map f (g x))) xs).
Proof.
  induction xs as [|x xs IH]; simpl; [reflexivity|].
  rewrite map_app, vsum_app. fold (vsum (map (fun x => vsum (map f (g x))) xs)).
  rewrite IH. reflexivity.
Qed.

(** ** Divisions and row accesses that succeed *)

Lemma np_div_ok x y : y <> 0%R -> np_div x y = Ok (x / y)%R.
Proof. intros H. unfold np_div. destruct (Req_dec_T y 0); [contradiction|reflexivity]. Qed.

Lemma np_vdiv_ok a s : s <> 0%R -> np_vdiv a s = Ok (vscale a (/ s)).
Proof. intros H. unfold np_vdiv. rewrite !np_div_ok by assumption. reflexivity. Qed.

Lemma py_div_ok x y : y <> 0%R -> py_div x y = Ok (x / y)%R.
Proof. intros H. unfold py_div. destruct (Req_dec_T y 0); [contradiction|reflexivity]. Qed.

Lemma get_row_ok (a : list Vec3) i : i < length a -> get_row a i = Ok (a !!! i).
Proof.
  intros H. unfold get_row.
  destruct (lookup_lt_is_Some_2 a i H) as [v Hv].
  rewrite Hv. f_equal. symmetry. apply list_lookup_total_correct. exact Hv.
Qed.

(** ** Loops that add into the rows of an array *)

Lemma accumulates_refl ds : accumulates (fun _ => vzero) ds ds.
Proof. split; [reflexivity|]. intros v _. symmetry; apply vadd_zero_r. Qed.

Lemma accumulates_trans g1 g2 ds0 ds1 ds2 :
  accumulates g1 ds0 ds1 -> accumulates g2 ds1 ds2 ->
  accumulates (fun v => vadd (g1 v) (g2 v)) ds0 ds2.
Proof.
  intros [L1 H1] [L2 H2]. split; [congruence|].
  intros v Hv. rewrite H2 by lia. rewrite H1 by exact Hv. symmetry; apply vadd_assoc.
Qed.

Lemma accumulates_ext g g' ds ds' :
  (forall v, v < length ds -> g v = g' v) ->
  accumulates g ds ds' -> accumulates g' ds ds'.
Proof.
  intros E [L H]. split; [exact L|]. intros v Hv. rewrite H by exact Hv.
  rewrite E by exact Hv. reflexivity.
Qed.

Lemma for_each_accumulates {A} (P : A -> Prop)
    (body : A -> list Vec3 -> outcome (list Vec3)) (g : A -> nat -> Vec3) (n : nat) :
  (forall x ds, P x -> length ds = n ->
     exists ds', body x ds = Ok ds' /\ accumulates (g x) ds ds') ->
  forall xs ds, Forall P xs -> length ds = n ->
    exists ds', for_each body xs ds = Ok ds' /\
                accumulates (fun v => vsum (map (fun x => g x v) xs)) ds ds'.
Proof.
  intros Hbody xs. induction xs as [|x xs IH]; intros ds HP Hlen; simpl.
  - exists ds. split; [reflexivity|]. apply accumulates_refl.
  - inversion HP as [|? ? Hx Hxs]; subst.
    destruct (Hbody x ds Hx eq_refl) as (ds1 & E1 & A1).
    rewrite E1; simpl.
    destruct (IH ds1 Hxs (proj1 A1)) as (ds2 & E2 & A2).
    exists ds2. split; [exact E2|].
    exact (accumulates_trans _ _ _ _ _ A1 A2).
Qed.

(** [a[i] += f; a[j] -= f] *)
Lemma pair_update_accumulates (ds : list Vec3) i j f :
  i < length ds -> j < length ds ->
  exists ds', (let* d := iadd_row ds i f in isub_row d j f) = Ok ds' /\
              accumulates (fun v => contrib v i j f) ds ds'.
Proof.
  intros Hi Hj. unfold iadd_row, isub_row.
  rewrite (get_row_ok ds i Hi); simpl.
  rewrite get_row_ok by (rewrite length_insert; exact Hj). simpl.
  eexists; split; [reflexivity|]. split.
  - rewrite !length_insert. reflexivity.
  - intros v Hv. unfold contrib.
    destruct (decide (v = j)) as [->|Nj].
    + rewrite list_lookup_total_insert_eq by (rewrite length_insert; exact Hj).
      destruct (decide (j = i)) as [->|Ni].
      * rewrite list_lookup_total_insert_eq by exact Hi. vec.
      * rewrite list_lookup_total_insert_ne by congruence. vec.
    + rewrite list_lookup_total_insert_ne by congruence.
      destruct (decide (v = i)) as [->|Ni].
      * rewrite list_lookup_total_insert_eq by exact Hi. vec.
      * rewrite list_lookup_total_insert_ne by congruence. vec.
Qed.

Lemma contrib_zero v i j : contrib v i j vzero = vzero.
Proof. unfold contrib. destruct (decide (v = i)), (decide (v = j)); vec. Qed.

Lemma skip_accumulates (ds : list Vec3) i j :
  accumulates (fun v => contrib v i j vzero) ds ds.
Proof.
  apply (accumulates_ext (fun _ => vzero)); [|apply accumulates_refl].
  intros v _. symmetry; apply contrib_zero.
Qed.

(** ** The two force loops *)

Section Forces.

Variable k : R.
Variable n : nat.
Variable positions : list Vec3.
Hypothesis positions_length : length positions = n.

Lemma repulse_pair_accumulates i j ds :
  i < n -> j < n -> length ds = n ->
  exists ds', repulse_pair k positions i j ds = Ok ds' /\
    accumulates (fun v => contrib v i j (repulsive_force k positions i j)) ds ds'.
Proof.
  intros Hi Hj Hds. unfold repulse_pair, repulsive_force.
  rewrite !get_row_ok by lia. simpl.
  destruct (Rlt_dec 0 (norm (vsub (positions !!! i) (positions !!! j)))) as [Hd|Hd].
  - rewrite np_div_ok, np_vdiv_ok by lra. simpl.
    apply pair_update_accumulates; lia.
  - exists ds. split; [reflexivity|]. apply skip_accumulates.
Qed.

Lemma attract_edge_accumulates i j w ds :
  k <> 0%R -> i < n -> j < n -> length ds = n ->
  exists ds', attract_edge k positions (i, j, w) ds = Ok ds' /\
    accumulates (fun v => contrib v i j (attractive_force k positions i j w)) ds ds'.
Proof.
  intros Hk Hi Hj Hds. unfold attract_edge, attractive_force.
  rewrite !get_row_ok by lia. simpl.
  destruct (Rlt_dec 0 (norm (vsub (positions !!! j) (positions !!! i)))) as [Hd|Hd].
  - rewrite np_div_ok by exact Hk. simpl. rewrite np_vdiv_ok by lra. simpl.
    apply pair_update_accumulates; lia.
  - exists ds. split; [reflexivity|]. apply skip_accumulates.
Qed.

Lemma repulsion_accumulates ds :
  length ds = n ->
  exists ds', repulsion k n positions ds = Ok ds' /\
    accumulates
      (fun v => vsum (map (fun p => contrib v p.1 p.2
                                      (repulsive_force k positions p.1 p.2))
                          (pairs n)))
      ds ds'.
Proof.
  intros Hds. unfold repulsion.
  destruct (for_each_accumulates (fun i => i < n)
              (fun i ds => for_each (repulse_pair k positions i)
                                    (seq (i + 1) (n - (i + 1))) ds)
              (fun i v => vsum (map (fun j => contrib v i j
                                                (repulsive_force k positions i j))
                                    (seq (i + 1) (n - (i + 1)))))
              n) with (xs := seq 0 n) (ds := ds) as (ds' & E & A).
  - intros i ds0 Hi Hds0.
    apply (for_each_accumulates (fun j => j < n)
             (repulse_pair k positions i)
             (fun j v => contrib v i j (repulsive_force k positions i j)) n).
    + intros j ds1 Hj Hds1. apply repulse_pair_accumulates; assumption.
    + apply Forall_forall. intros j Hj. apply elem_of_seq in Hj. lia.
    + exact Hds0.
  - apply Forall_forall. intros i Hi. apply elem_of_seq in Hi. lia.
  - exact Hds.
  - exists ds'. split; [exact E|].
    eapply accumulates_ext; [|exact A].
    intros v _. unfold pairs. rewrite vsum_flat_map. f_equal.
    apply map_ext. intros i. rewrite map_map. reflexivity.
Qed.

Lemma attraction_accumulates (es : list (nat * nat * R)) ds :
  k <> 0%R -> Forall (fun e => e.1.1 < n /\ e.1.2 < n) es -> length ds = n ->
  exists ds', for_each (attract_edge k positions) es ds = Ok ds' /\
    accumulates
      (fun v => vsum (map (fun e => contrib v e.1.1 e.1.2
                                      (attractive_force k positions e.1.1 e.1.2 e.2))
                          es))
      ds ds'.
Proof.
  intros Hk Hes Hds.
  apply (for_each_accumulates (fun e => e.1.1 < n /\ e.1.2 < n)
           (attract_edge k positions)
           (fun e v => contrib v e.1.1 e.1.2
                         (attractive_force k positions e.1.1 e.1.2 e.2)) n).
  - intros [[i j] w] ds0 [Hi Hj] Hds0. simpl in *.
    apply attract_edge_accumulates; assumption.
  - exact Hes.
  - exact Hds.
Qed.

End Forces.

Lemma tabulate_eq (ds : list Vec3) (n : nat) (g : nat -> Vec3) :
  length ds = n -> (forall v, v < n -> ds !!! v = g v) -> ds = map g (seq 0 n).
Proof.
  intros Hlen H. apply list_eq. intros v.
  change (map g (seq 0 n)) with (g <$> seq 0 n).
  rewrite list_lookup_fmap.
  destruct (decide (v < n)) as [Hv|Hv].
  - rewrite lookup_seq_lt by exact Hv. simpl.
    rewrite <- (H v Hv). apply list_lookup_lookup_total_lt. lia.
  - rewrite lookup_seq_ge by lia. simpl. apply lookup_ge_None. lia.
Qed.

Lemma elem_of_pairs n i j : (i, j) ∈ pairs n <-> i < j < n.
Proof.
  unfold pairs. rewrite list_elem_of_In, in_flat_map. split.
  - intros (i' & Hi' & Hin). apply in_map_iff in Hin as (j' & E & Hj').
    inversion E; subst. apply in_seq in Hj'. lia.
  - intros H. exists i. split; [apply in_seq; lia|].
    apply in_map_iff. exists j. split; [reflexivity|]. apply in_seq. lia.
Qed.

Lemma NoDup_pairs n : NoDup (pairs n).
Proof.
  unfold pairs.
  assert (G : forall (f : nat -> list nat), (forall i, NoDup (f i)) ->
            forall m a, NoDup (flat_map (fun i => map (pair i) (f i)) (seq a m))).
  { intros f Hf m. induction m as [|m IH]; intros a; simpl; [constructor|].
    apply NoDup_app. split; [|split].
    - apply NoDup_fmap_2; [intros x y E; congruence|]. apply Hf.
    - intros [i j] H1 H2. apply list_elem_of_fmap in H1 as (j' & E & _).
      inversion E; subst.
      apply list_elem_of_In, in_flat_map in H2 as (i' & Hi' & Hin).
      apply in_map_iff in Hin as (j'' & E' & _). inversion E'; subst.
      apply in_seq in Hi'. lia.
    - apply IH. }
  apply (G (fun i => seq (i + 1) (n - (i + 1)))). intros i. apply NoDup_seq.
Qed.

Lemma norm_unit a : (0 < norm a)%R -> norm (vscale a (/ norm a)) = 1%R.
Proof.
  intros H. rewrite norm_vscale.
  rewrite Rabs_pos_eq by (left; apply Rinv_0_lt_compat; exact H).
  field. lra.
Qed.

Lemma norm_scaled_unit a s :
  (0 < norm a)%R -> (0 <= s)%R -> norm (vscale (vscale a (/ norm a)) s) = s.
Proof.
  intros H Hs. rewrite norm_vscale, norm_unit by exact H.
  rewrite Rabs_pos_eq by exact Hs. ring.
Qed.

Lemma compute_displacements_ok k n edge_pairs edge_weights positions :
  k <> 0%R -> length positions = n ->
  Forall (fun p => p.1 < n /\ p.2 < n) edge_pairs ->
  compute_displacements k n edge_pairs edge_weights positions
  = Ok (map (net_force k positions (zip edge_pairs edge_weights)) (seq 0 n)).
Proof.
  intros Hk Hn Hes. unfold compute_displacements.
  destruct (repulsion_accumulates k n positions Hn (replicate n vzero))
    as (ds1 & E1 & L1 & A1); [apply length_replicate|].
  rewrite E1; simpl. unfold attraction.
  destruct (attraction_accumulates k n positions Hn
              (zip edge_pairs edge_weights) ds1 Hk) as (ds2 & E2 & L2 & A2).
  - apply Forall_forall. intros [[i j] w] Hin. simpl.
    apply elem_of_zip_l in Hin. simpl in Hin.
    rewrite Forall_forall in Hes. exact (Hes (i, j) Hin).
  - rewrite L1. apply length_replicate.
  - rewrite E2. f_equal. apply tabulate_eq.
    + rewrite L2, L1. apply length_replicate.
    + intros v Hv. rewrite length_replicate in *.
      rewrite A2 by lia. rewrite A1 by exact Hv.
      rewrite lookup_total_replicate_2 by exact Hv.
      rewrite vadd_zero_l. unfold net_force. rewrite Hn. reflexivity.
Qed.

(** ** Applying the displacements *)

Lemma iadd_row_accumulates (a : list Vec3) i f :
  i < length a ->
  exists a', iadd_row a i f = Ok a' /\
             accumulates (fun v => if decide (v = i) then f else vzero) a a'.
Proof.
  intros Hi. unfold iadd_row. rewrite get_row_ok by exact Hi. simpl.
  eexists; split; [reflexivity|]. split; [apply length_insert|].
  intros v Hv. destruct (decide (v = i)) as [->|Ni].
  - rewrite list_lookup_total_insert_eq by exact Hi. reflexivity.
  - rewrite list_lookup_total_insert_ne by congruence. symmetry; apply vadd_zero_r.
Qed.

Lemma vsum_indicator (f : nat -> Vec3) v m a :
  a <= v < a + m ->
  vsum (map (fun i => if decide (v = i) then f i else vzero) (seq a m)) = f v.
Proof.
  revert a. induction m as [|m IH]; intros a H; [lia|]. simpl.
  fold (vsum (map (fun i => if decide (v = i) then f i else vzero) (seq (S a) m))).
  destruct (decide (v = a)) as [->|Na].
  - rewrite vsum_zero; [apply vadd_zero_r|].
    intros i Hi. apply elem_of_seq in Hi. destruct (decide (a = i)); [lia|reflexivity].
  - rewrite IH by lia. apply vadd_zero_l.
Qed.

Lemma move_node_accumulates temperature (ds ps : list Vec3) i :
  i < length ds -> i < length ps ->
  exists ps', move_node temperature ds i ps = Ok ps' /\
    accumulates (fun v => if decide (v = i) then move temperature (ds !!! i) else vzero)
                ps ps'.
Proof.
  intros Hd Hp. unfold move_node, move. rewrite get_row_ok by exact Hd. simpl.
  destruct (Rlt_dec 0 (norm (ds !!! i))) as [Hlen|Hlen].
  - rewrite np_vdiv_ok by lra. simpl. apply iadd_row_accumulates. exact Hp.
  - exists ps. split; [reflexivity|].
    apply (accumulates_ext (fun _ => vzero)); [|apply accumulates_refl].
    intros v _. destruct (decide (v = i)); reflexivity.
Qed.

Lemma apply_displacements_ok n temperature (ds ps : list Vec3) :
  length ds = n -> length ps = n ->
  apply_displacements n temperature ds ps
  = Ok (map (fun v => vadd (ps !!! v) (move temperature (ds !!! v))) (seq 0 n)).
Proof.
  intros Hd Hp. unfold apply_displacements.
  destruct (for_each_accumulates (fun i => i < n)
              (move_node temperature ds)
              (fun i v => if decide (v = i) then move temperature (ds !!! i) else vzero)
              n) with (xs := seq 0 n) (ds := ps) as (ps' & E & L & A).
  - intros i ps0 Hi Hps0. apply move_node_accumulates; lia.
  - apply Forall_forall. intros i Hi. apply elem_of_seq in Hi. lia.
  - exact Hp.
  - rewrite E. f_equal. apply tabulate_eq; [lia|].
    intros v Hv. rewrite A by lia. f_equal.
    apply (vsum_indicator (fun i => move temperature (ds !!! i))). lia.
Qed.

(** ** A whole step, and runs of steps *)

Lemma lookup_total_tabulate (g : nat -> Vec3) (n v : nat) :
  v < n -> map g (seq 0 n) !!! v = g v.
Proof.
  intros Hv. apply list_lookup_total_correct.
  change (map g (seq 0 n)) with (g <$> seq 0 n).
  rewrite list_lookup_fmap, lookup_seq_lt by exact Hv. reflexivity.
Qed.

Lemma step_ok k n edge_pairs edge_weights positions temperature :
  k <> 0%R -> length positions = n -> in_range n edge_pairs ->
  step k n edge_pairs edge_weights (positions, temperature)
  = Ok (map (fun v => vadd (positions !!! v)
                           (move temperature
                              (net_force k positions (zip edge_pairs edge_weights) v)))
            (seq 0 n),
        (temperature * 0.98)%R).
Proof.
  intros Hk Hn Hes. unfold step.
  rewrite compute_displacements_ok by assumption. simpl.
  rewrite apply_displacements_ok;
    [|rewrite length_map, length_seq; reflexivity|exact Hn].
  simpl. f_equal. f_equal. apply map_ext_in. intros v Hv. apply in_seq in Hv.
  f_equal. f_equal. apply lookup_total_tabulate. lia.
Qed.

(** ** The id-to-index dictionary *)

Lemma idx_fold_Some (l : list Node) : forall a (m : gmap string nat) s i,
  fold_left (fun m p => <[node_id p.2 := p.1]> m) (zip (seq a (length l)) l) m !! s
  = Some i ->
  m !! s = Some i \/
  (a <= i < a + length l /\ exists nd, l !! (i - a) = Some nd /\ node_id nd = s).
Proof.
  induction l as [|x l IH]; intros a m s i; simpl; [tauto|].
  intros H. apply IH in H as [H|(Hr & nd & Hl & Hs)].
  - destruct (decide (node_id x = s)) as [E|N].
    + subst s. rewrite lookup_insert_eq in H. inversion H; subst.
      right. split; [lia|]. exists x. rewrite Nat.sub_diag. split; reflexivity.
    + rewrite lookup_insert_ne in H by exact N. left; exact H.
  - right. split; [lia|]. exists nd. split; [|exact Hs].
    replace (i - a) with (S (i - S a)) by lia. exact Hl.
Qed.

Lemma idx_fold_None (l : list Node) : forall a (m : gmap string nat) s,
  fold_left (fun m p => <[node_id p.2 := p.1]> m) (zip (seq a (length l)) l) m !! s
  = None <->
  m !! s = None /\ s ∉ map node_id l.
Proof.
  induction l as [|x l IH]; intros a m s; simpl.
  - split; [intros H; split; [exact H|apply not_elem_of_nil]|tauto].
  - rewrite IH. rewrite not_elem_of_cons.
    destruct (decide (node_id x = s)) as [E|N].
    + subst s. rewrite lookup_insert_eq. split; [intros [H _]; discriminate|tauto].
    + rewrite lookup_insert_ne by exact N. split; intros H; [|tauto].
      split; [tauto|]. split; [congruence|tauto].
Qed.

Lemma id_to_idx_Some nodes s i :
  id_to_idx nodes !! s = Some i ->
  i < length nodes /\ exists nd, nodes !! i = Some nd /\ node_id nd = s.
Proof.
  intros H. apply idx_fold_Some in H as [H|(Hr & nd & Hl & Hs)].
  - rewrite lookup_empty in H. discriminate.
  - split; [lia|]. exists nd. rewrite Nat.sub_0_r in Hl. tauto.
Qed.

Lemma id_to_idx_None nodes s :
  id_to_idx nodes !! s = None <-> ~ known nodes s.
Proof.
  unfold id_to_idx, known. rewrite idx_fold_None. rewrite lookup_empty. tauto.
Qed.

Lemma id_to_idx_is_Some nodes s :
  is_Some (id_to_idx nodes !! s) <-> known nodes s.
Proof.
  rewrite <- not_eq_None_Some, id_to_idx_None.
  unfold known. destruct (decide (s ∈ map node_id nodes)); tauto.
Qed.

(** ** Edge resolution *)

Lemma resolve_edges_acc idx edges : forall acc,
  fold_left (resolve_step idx) edges acc
  = (acc.1 ++ (omap (resolve_edge idx) edges).*1,
     acc.2 ++ (omap (resolve_edge idx) edges).*2).
Proof.
  induction edges as [|e edges IH]; intros [ps ws]; simpl.
  - rewrite !app_nil_r. reflexivity.
  - rewrite IH. unfold resolve_step, resolve_edge.
    destruct (idx !! source e) as [i|]; [destruct (idx !! target e) as [j|]|];
      simpl; rewrite <- ?app_assoc; reflexivity.
Qed.

Lemma resolve_edges_retained nodes edges :
  resolve_edges (id_to_idx nodes) edges
  = ((retained nodes edges).*1, (retained nodes edges).*2).
Proof. unfold resolve_edges. rewrite resolve_edges_acc. reflexivity. Qed.

Lemma zip_fst_snd {A B} (l : list (A * B)) : zip (l.*1) (l.*2) = l.
Proof. induction l as [|[a b] l IH]; [reflexivity|]. cbn. f_equal. exact IH. Qed.

Lemma resolve_edge_Some nodes e t :
  resolve_edge (id_to_idx nodes) e = Some t ->
  resolvable nodes e = true /\ t.2 = weight e /\
  t.1.1 < length nodes /\ t.1.2 < length nodes /\
  (exists nd, nodes !! t.1.1 = Some nd /\ node_id nd = source e) /\
  (exists nd, nodes !! t.1.2 = Some nd /\ node_id nd = target e).
Proof.
  unfold resolve_edge, resolvable.
  destruct (id_to_idx nodes !! source e) as [i|] eqn:Ei; [|discriminate].
  destruct (id_to_idx nodes !! target e) as [j|] eqn:Ej; [|discriminate].
  intros H; inversion H; subst; simpl.
  destruct (id_to_idx_Some _ _ _ Ei) as (Hi & Hni).
  destruct (id_to_idx_Some _ _ _ Ej) as (Hj & Hnj).
  repeat split; try assumption.
  apply andb_true_intro. split; apply bool_decide_eq_true_2;
    apply id_to_idx_is_Some; eauto.
Qed.

Lemma resolve_edge_None nodes e :
  resolve_edge (id_to_idx nodes) e = None <-> resolvable nodes e = false.
Proof.
  unfold resolve_edge, resolvable. rewrite andb_false_iff, !bool_decide_eq_false.
  rewrite <- !id_to_idx_None.
  destruct (id_to_idx nodes !! source e) as [i|];
    [destruct (id_to_idx nodes !! target e) as [j|]|]; split; intros H;
    try discriminate; try reflexivity; try tauto.
  destruct H; discriminate.
Qed.

Lemma retained_filter nodes edges :
  retained nodes (filter (fun e => resolvable nodes e = true) edges)
  = retained nodes edges.
Proof.
  unfold retained. induction edges as [|e edges IH]; [reflexivity|].
  destruct (decide (resolvable nodes e = true)) as [H|H].
  - rewrite filter_cons_True by exact H. cbn. rewrite IH. reflexivity.
  - rewrite filter_cons_False by exact H. rewrite IH. cbn.
    apply not_true_is_false, resolve_edge_None in H. rewrite H. reflexivity.
Qed.

Lemma retained_in_range nodes edges :
  in_range (length nodes) (retained nodes edges).*1.
Proof.
  unfold in_range. apply Forall_forall. intros p Hp.
  apply list_elem_of_fmap in Hp as ([q w] & -> & Hin). simpl.
  unfold retained in Hin. apply list_elem_of_omap in Hin as (e & _ & He).
  apply resolve_edge_Some in He. simpl in He. tauto.
Qed.

(** ** Weights *)

Lemma fold_max_spec (ws : list R) : forall w,
  (w <= fold_left Rmax ws w)%R /\
  (forall x, x ∈ ws -> (x <= fold_left Rmax ws w)%R) /\
  fold_left Rmax ws w ∈ w :: ws.
Proof.
  induction ws as [|y ws IH]; intros w; simpl.
  - split; [lra|]. split; [intros x Hx; inversion Hx|left].
  - destruct (IH (Rmax w y)) as (H1 & H2 & H3).
    pose proof (Rmax_l w y). pose proof (Rmax_r w y).
    split; [lra|]. split.
    + intros x Hx. apply elem_of_cons in Hx as [->|Hx]; [lra|apply H2, Hx].
    + apply elem_of_cons in H3 as [E|H3].
      * rewrite E. unfold Rmax. destruct (Rle_dec w y); [right; left|left].
      * right; right; exact H3.
Qed.

Lemma max_of_upper (ws : list R) x : x ∈ ws -> (x <= max_of ws)%R.
Proof.
  destruct ws as [|w ws]; [intros H; inversion H|]. simpl.
  destruct (fold_max_spec ws w) as (H1 & H2 & _).
  intros H. apply elem_of_cons in H as [->|H]; [exact H1|apply H2, H].
Qed.

Lemma max_of_elem (ws : list R) : ws <> [] -> max_of ws ∈ ws.
Proof.
  destruct ws as [|w ws]; [congruence|]. intros _. simpl.
  apply (fold_max_spec ws w).
Qed.

Lemma max_of_pos (ws : list R) :
  Forall (fun w => 0 < w)%R ws -> (0 < max_of ws)%R.
Proof.
  intros H. destruct ws as [|w ws]; [simpl; lra|].
  rewrite Forall_forall in H. apply H. apply max_of_elem. discriminate.
Qed.

Lemma normalize_weights_ok ws m :
  m <> 0%R -> normalize_weights ws m = Ok (map (fun w => w / m)%R ws).
Proof.
  intros Hm. induction ws as [|w ws IH]; simpl; [reflexivity|].
  rewrite py_div_ok by exact Hm. simpl. rewrite IH. reflexivity.
Qed.

Lemma normalize_weights_zero w ws :
  normalize_weights (w :: ws) 0 = Raise ZeroDivisionError.
Proof.
  simpl. unfold py_div. destruct (Req_dec_T 0 0); [reflexivity|congruence].
Qed.

(** ** Runs *)

Lemma iterate_snoc k n ep ew t st :
  iterate k n ep ew (S t) st
  = let* st' := iterate k n ep ew t st in step k n ep ew st'.
Proof.
  revert st. induction t as [|t IH]; intros st.
  - simpl. destruct (step k n ep ew st); reflexivity.
  - cbn [iterate]. cbn [iterate] in IH.
    destruct (step k n ep ew st) as [st1| |]; simpl; [|reflexivity..].
    apply IH.
Qed.

Lemma step_length k n ep ew positions temperature :
  k <> 0%R -> length positions = n -> in_range n ep ->
  exists positions',
    step k n ep ew (positions, temperature) = Ok (positions', (temperature * 0.98)%R) /\
    length positions' = n.
Proof.
  intros Hk Hn He. rewrite step_ok by assumption.
  eexists; split; [reflexivity|]. rewrite length_map, length_seq. reflexivity.
Qed.

Lemma iterate_ok k n ep ew t : forall positions temperature,
  k <> 0%R -> length positions = n -> in_range n ep ->
  exists positions',
    iterate k n ep ew t (positions, temperature)
    = Ok (positions', (temperature * 0.98 ^ t)%R) /\
    length positions' = n.
Proof.
  induction t as [|t IH]; intros ps T Hk Hn He.
  - exists ps. simpl. split; [f_equal; f_equal; lra|exact Hn].
  - destruct (step_length k n ep ew ps T Hk Hn He) as (ps1 & E1 & L1).
    destruct (IH ps1 (T * 0.98)%R Hk L1 He) as (ps2 & E2 & L2).
    exists ps2. split; [|exact L2].
    cbn [iterate]. rewrite E1. cbn [bind]. rewrite E2. f_equal. f_equal. simpl. ring.
Qed.

Lemma simulate_retained sample nodes edges iterations :
  simulate sample nodes edges iterations
  = let r := retained nodes edges in
    let* edge_weights := normalize_weights r.*2 (max_of r.*2) in
    let* q := py_div area (INR (length nodes)) in
    iterate (sqrt q) (length nodes) r.*1 edge_weights (Z.to_nat iterations)
            (initial_positions sample (length nodes), initial_temperature).
Proof. unfold simulate. rewrite resolve_edges_retained. reflexivity. Qed.

Lemma initial_positions_length sample n : length (initial_positions sample n) = n.
Proof. unfold initial_positions. rewrite length_map, length_seq. reflexivity. Qed.

Lemma k_positive n : n <> 0 -> (0 < sqrt (area / INR n))%R.
Proof.
  intros Hn. apply sqrt_lt_R0. unfold area.
  apply Rdiv_lt_0_compat; [lra|]. apply lt_0_INR. lia.
Qed.

Lemma simulate_ok sample nodes edges iterations :
  nodes <> [] -> max_of (retained nodes edges).*2 <> 0%R ->
  exists positions,
    simulate sample nodes edges iterations
    = Ok (positions, (initial_temperature * 0.98 ^ Z.to_nat iterations)%R) /\
    length positions = length nodes.
Proof.
  intros Hn Hm. rewrite simulate_retained. cbv zeta.
  rewrite normalize_weights_ok by exact Hm. simpl.
  assert (Hlen : length nodes <> 0) by (destruct nodes; [congruence|simpl; lia]).
  rewrite py_div_ok by (apply not_0_INR; exact Hlen). simpl.
  apply iterate_ok.
  - pose proof (k_positive _ Hlen). lra.
  - apply initial_positions_length.
  - apply retained_in_range.
Qed.

(** ** Normalization *)

Lemma Rabs_le_bounds a b : (Rabs a <= b)%R -> (- b <= a <= b)%R.
Proof. unfold Rabs. destruct (Rcase_abs a); lra. Qed.

Lemma coords_scale positions s :
  coords (map (fun v => vscale v s) positions)
  = map (fun c => c * s)%R (coords positions).
Proof.
  induction positions as [|v ps IH]; simpl; [reflexivity|].
  f_equal. f_equal. f_equal. exact IH.
Qed.

Lemma np_max_spec xs m :
  np_max xs = Ok m -> m ∈ xs /\ forall x, x ∈ xs -> (x <= m)%R.
Proof.
  destruct xs as [|x xs]; simpl; [discriminate|].
  intros H; inversion H; subst.
  destruct (fold_max_spec xs x) as (H1 & H2 & H3). split; [exact H3|].
  intros y Hy. apply elem_of_cons in Hy as [->|Hy]; [exact H1|apply H2, Hy].
Qed.

Lemma max_coord_spec positions m :
  np_max (map Rabs (coords positions)) = Ok m ->
  (0 <= m)%R /\
  (exists c, c ∈ coords positions /\ Rabs c = m) /\
  (forall c, c ∈ coords positions -> (Rabs c <= m)%R).
Proof.
  intros H. apply np_max_spec in H as [Hin Hub].
  apply list_elem_of_fmap in Hin as (c & Hc & Hin).
  split; [rewrite Hc; apply Rabs_pos|]. split; [exists c; auto|].
  intros c' Hc'. apply Hub. apply list_elem_of_fmap. exists c'. auto.
Qed.

Lemma vscale_one v : vscale v 1 = v.
Proof. vec. Qed.

Lemma map_vscale_one (positions : list Vec3) :
  map (fun v => vscale v 1) positions = positions.
Proof.
  induction positions as [|v ps IH]; simpl; [reflexivity|].
  rewrite vscale_one, IH. reflexivity.
Qed.

Lemma all_zero_when_max_zero positions :
  np_max (map Rabs (coords positions)) = Ok 0%R ->
  Forall (fun v => v = vzero) positions.
Proof.
  intros H. apply max_coord_spec in H as (_ & _ & Hub).
  apply Forall_forall. intros v Hv.
  assert (Hc : forall c, c ∈ [vx v; vy v; vz v] -> c = 0%R).
  { intros c Hc. specialize (Hub c).
    assert (Hin : c ∈ coords positions).
    { unfold coords. apply list_elem_of_In, in_flat_map. exists v.
      split; apply list_elem_of_In; assumption. }
    specialize (Hub Hin). apply Rabs_le_bounds in Hub. lra. }
  apply vec_ext; simpl; apply Hc; set_solver.
Qed.

Lemma norm_vsub_scale a b s :
  (0 <= s)%R ->
  norm (vsub (vscale a s) (vscale b s)) = (s * norm (vsub a b))%R.
Proof.
  intros Hs. replace (vsub (vscale a s) (vscale b s)) with (vscale (vsub a b) s) by vec.
  rewrite norm_vscale, Rabs_pos_eq by exact Hs. reflexivity.
Qed.

Lemma vdot_vsub_scale a b c d s :
  vdot (vsub (vscale a s) (vscale b s)) (vsub (vscale c s) (vscale d s))
  = (s * s * vdot (vsub a b) (vsub c d))%R.
Proof. unfold vdot, vsub, vscale; simpl. ring. Qed.

Lemma normalize_positions_scaled positions target_range m :
  np_max (map Rabs (coords positions)) = Ok m -> (0 < m)%R ->
  normalize_positions positions target_range
  = Ok (map (fun v => vscale v (target_range / m)) positions).
Proof.
  intros Hm Hpos. unfold normalize_positions. rewrite Hm. simpl.
  destruct (Rlt_dec 0 m); [|contradiction].
  rewrite np_div_ok by lra. reflexivity.
Qed.

Lemma normalize_positions_unchanged positions target_range :
  np_max (map Rabs (coords positions)) = Ok 0%R ->
  normalize_positions positions target_range = Ok positions.
Proof.
  intros Hm. unfold normalize_positions. rewrite Hm. simpl.
  destruct (Rlt_dec 0 0); [lra|reflexivity].
Qed.

Lemma scaled_coords_bounded positions target_range m :
  (0 <= target_range)%R -> (0 < m)%R ->
  np_max (map Rabs (coords positions)) = Ok m ->
  (forall c, c ∈ coords (map (fun v => vscale v (target_range / m)) positions) ->
             (- target_range <= c <= target_range)%R) /\
  (exists c, c ∈ coords (map (fun v => vscale v (target_range / m)) positions) /\
             (c = target_range \/ c = (- target_range)%R)).
Proof.
  intros HR Hpos Hm. apply max_coord_spec in Hm as (_ & (c0 & Hc0 & E0) & Hub).
  rewrite coords_scale. split.
  - intros c Hc. apply list_elem_of_fmap in Hc as (c' & -> & Hc').
    specialize (Hub c' Hc'). apply Rabs_le_bounds in Hub.
    assert (Hs : (0 <= target_range / m)%R)
      by (apply Rmult_le_pos; [exact HR|left; apply Rinv_0_lt_compat; exact Hpos]).
    assert (E : (target_range = m * (target_range / m))%R) by (field; lra).
    set (s := (target_range / m)%R) in *.
    pose proof (Rmult_le_compat_r s c' m Hs (proj2 Hub)).
    pose proof (Rmult_le_compat_r s (- m) c' Hs (proj1 Hub)).
    lra.
  - exists (c0 * (target_range / m))%R. split.
    + apply list_elem_of_fmap. exists c0. auto.
    + unfold Rabs in E0. destruct (Rcase_abs c0); [right|left]; subst m; field; lra.
Qed.

(** ** The forces, one by one *)

Lemma repulsive_force_cases k positions i j :
  let delta := vsub (positions !!! i) (positions !!! j) in
  let distance := norm delta in
  ((0 < distance)%R ->
     repulsive_force k positions i j
     = vscale (vscale delta (/ distance)) (k * k / distance) /\
     norm (vscale delta (/ distance)) = 1%R /\
     norm (repulsive_force k positions i j) = (k * k / distance)%R) /\
  (distance = 0%R -> repulsive_force k positions i j = vzero).
Proof.
  intros delta distance. unfold repulsive_force. fold delta. fold distance.
  split.
  - intros Hd. destruct (Rlt_dec 0 distance); [|contradiction].
    split; [reflexivity|]. split; [apply norm_unit; exact Hd|].
    apply norm_scaled_unit; [exact Hd|].
    apply Rmult_le_pos; [nra|left; apply Rinv_0_lt_compat; exact Hd].
  - intros Hd. destruct (Rlt_dec 0 distance); [lra|reflexivity].
Qed.

Lemma attractive_force_cases k positions i j w :
  let delta := vsub (positions !!! j) (positions !!! i) in
  let distance := norm delta in
  ((0 < distance)%R ->
     attractive_force k positions i j w
     = vscale (vscale delta (/ distance))
              (distance * distance / k * (0.5 + 0.5 * w)) /\
     norm (vscale delta (/ distance)) = 1%R /\
     ((0 < k)%R -> (0 <= w)%R ->
      norm (attractive_force k positions i j w)
      = (distance * distance / k * (0.5 + 0.5 * w))%R)) /\
  (distance = 0%R -> attractive_force k positions i j w = vzero).
Proof.
  intros delta distance. unfold attractive_force. fold delta. fold distance.
  split.
  - intros Hd. destruct (Rlt_dec 0 distance); [|contradiction].
    split; [reflexivity|]. split; [apply norm_unit; exact Hd|].
    intros Hk Hw. apply norm_scaled_unit; [exact Hd|].
    apply Rmult_le_pos; [|lra].
    apply Rmult_le_pos; [nra|left; apply Rinv_0_lt_compat; exact Hk].
  - intros Hd. destruct (Rlt_dec 0 distance); [lra|reflexivity].
Qed.

Lemma contrib_cases v i j f :
  (v = i -> v <> j -> contrib v i j f = f) /\
  (v <> i -> v = j -> contrib v i j f = vsub vzero f) /\
  (v <> i -> v <> j -> contrib v i j f = vzero) /\
  (v = i -> v = j -> contrib v i j f = vzero).
Proof.
  unfold contrib. destruct (decide (v = i)), (decide (v = j));
    repeat split; intros; try contradiction; vec.
Qed.

(** ** The move of one node *)

Lemma norm_move_le temperature d :
  (0 <= temperature)%R -> (norm (move temperature d) <= temperature)%R.
Proof.
  intros HT. unfold move. destruct (Rlt_dec 0 (norm d)) as [Hd|Hd].
  - rewrite norm_scaled_unit; [apply Rmin_r|exact Hd|].
    apply Rmin_glb; lra.
  - rewrite norm_zero. exact HT.
Qed.

Lemma vsub_vadd_l p m : vsub (vadd p m) p = m.
Proof. vec. Qed.

Lemma pow_098_pos t : (0 < 0.98 ^ t)%R.
Proof. apply pow_lt. lra. Qed.

(** ** Graphs with no node, and with one node *)

Lemma retained_no_nodes edges : retained [] edges = [].
Proof.
  unfold retained. change (id_to_idx []) with (∅ : gmap string nat).
  induction edges as [|e edges IH]; [reflexivity|].
  cbn [omap list_omap]. rewrite IH.
  unfold resolve_edge. rewrite lookup_empty. reflexivity.
Qed.

Lemma simulate_no_nodes sample edges iterations :
  simulate sample [] edges iterations = Raise ZeroDivisionError.
Proof.
  rewrite simulate_retained, retained_no_nodes. simpl.
  unfold py_div. destruct (Req_dec_T 0 0); [reflexivity|congruence].
Qed.

Lemma step_single_node k p temperature :
  k <> 0%R ->
  step k 1 [] [] ([p], temperature) = Ok ([p], (temperature * 0.98)%R).
Proof.
  intros Hk. rewrite step_ok; [|exact Hk|reflexivity|constructor].
  simpl. unfold net_force. simpl. rewrite vadd_zero_l.
  unfold move. rewrite norm_zero.
  destruct (Rlt_dec 0 0); [lra|]. rewrite vadd_zero_r. reflexivity.
Qed.

Lemma iterate_single_node k p t : forall temperature,
  k <> 0%R ->
  iterate k 1 [] [] t ([p], temperature) = Ok ([p], (temperature * 0.98 ^ t)%R).
Proof.
  induction t as [|t IH]; intros T Hk.
  - simpl. f_equal. f_equal. lra.
  - cbn [iterate]. rewrite step_single_node by exact Hk. cbn [bind].
    rewrite IH by exact Hk. f_equal. f_equal. simpl. ring.
Qed.

Lemma simulate_single_node sample nd iterations :
  simulate sample [nd] [] iterations
  = Ok ([vscale (sample 0) 5],
        (initial_temperature * 0.98 ^ Z.to_nat iterations)%R).
Proof.
  rewrite simulate_retained. simpl.
  rewrite py_div_ok by lra. simpl.
  apply iterate_single_node.
  assert (H : (0 < sqrt (area / 1))%R) by (apply (k_positive 1); lia).
  lra.
Qed.

Lemma normalize_single_nonzero p target_range :
  p <> vzero -> (0 <= target_range)%R ->
  exists q, normalize_positions [p] target_range = Ok [q] /\
    (forall c, c ∈ [vx q; vy q; vz q] -> (- target_range <= c <= target_range)%R) /\
    (exists c, c ∈ [vx q; vy q; vz q] /\ (c = target_range \/ c = (- target_range)%R)).
Proof.
  intros Hp HR.
  destruct (np_max (map Rabs (coords [p]))) as [m| |] eqn:Hm; try discriminate.
  destruct (max_coord_spec _ _ Hm) as (Hnonneg & _ & _).
  assert (Hpos : (0 < m)%R).
  { destruct Hnonneg as [H|H]; [exact H|]. subst m.
    apply all_zero_when_max_zero in Hm. inversion Hm; subst. contradiction. }
  exists (vscale p (target_range / m)).
  split; [apply (normalize_positions_scaled [p]); assumption|].
  destruct (scaled_coords_bounded [p] target_range m HR Hpos Hm) as [H1 H2].
  simpl in H1, H2. auto.
Qed.

(** ** Retained edges, as a filter of the input *)

Lemma retained_as_filter nodes edges :
  retained nodes edges
  = map (fun e => (id_to_idx nodes !!! source e, id_to_idx nodes !!! target e, weight e))
        (filter (fun e => resolvable nodes e = true) edges).
Proof.
  unfold retained. induction edges as [|e edges IH]; [reflexivity|].
  cbn [omap list_omap]. fold (omap (resolve_edge (id_to_idx nodes)) edges). rewrite IH.
  destruct (decide (resolvable nodes e = true)) as [H|H].
  - rewrite filter_cons_True by exact H. cbn [map].
    destruct (resolve_edge (id_to_idx nodes) e) as [t|] eqn:E.
    + f_equal. unfold resolve_edge in E.
      destruct (id_to_idx nodes !! source e) as [i|] eqn:Ei; [|discriminate].
      destruct (id_to_idx nodes !! target e) as [j|] eqn:Ej; [|discriminate].
      inversion E; subst.
      rewrite (lookup_total_correct _ _ _ Ei), (lookup_total_correct _ _ _ Ej).
      reflexivity.
    + apply resolve_edge_None in E. congruence.
  - rewrite filter_cons_False by exact H.
    apply not_true_is_false, resolve_edge_None in H. rewrite H. reflexivity.
Qed.

Lemma retained_app nodes e1 e2 :
  retained nodes (e1 ++ e2) = retained nodes e1 ++ retained nodes e2.
Proof. unfold retained. apply omap_app. Qed.

Lemma retained_drop nodes e e1 e2 :
  resolvable nodes e = false ->
  retained nodes (e1 ++ e :: e2) = retained nodes (e1 ++ e2).
Proof.
  intros H. rewrite !retained_app. f_equal.
  unfold retained. cbn [omap list_omap].
  apply resolve_edge_None in H. rewrite H. reflexivity.
Qed.

Lemma simulate_same_retained sample nodes edges edges' iterations :
  retained nodes edges = retained nodes edges' ->
  simulate sample nodes edges iterations = simulate sample nodes edges' iterations.
Proof. intros H. rewrite !simulate_retained, H. reflexivity. Qed.

Lemma retained_weights_positive nodes edges :
  Forall (fun e => 0 < weight e)%R edges ->
  Forall (fun w => 0 < w)%R (retained nodes edges).*2.
Proof.
  intros H. apply Forall_forall. intros w Hw.
  apply list_elem_of_fmap in Hw as (t & -> & Ht).
  unfold retained in Ht. apply list_elem_of_omap in Ht as (e & He & Hr).
  apply resolve_edge_Some in Hr as (_ & -> & _).
  rewrite Forall_forall in H. apply H, He.
Qed.

Lemma resolve_edge_known nodes e :
  known nodes (source e) -> known nodes (target e) ->
  exists i j, resolve_edge (id_to_idx nodes) e = Some (i, j, weight e).
Proof.
  intros Hs Ht.
  apply id_to_idx_is_Some in Hs as [i Hi]. apply id_to_idx_is_Some in Ht as [j Hj].
  exists i, j. unfold resolve_edge. rewrite Hi, Hj. reflexivity.
Qed.

(** ** Runs never leave the reals *)

Lemma max_of_nil_nonzero (ws : list R) : max_of ws = 0%R -> ws <> [].
Proof. intros H E. subst ws. simpl in H. lra. Qed.

Lemma simulate_cases sample nodes edges iterations :
  (nodes = [] /\ simulate sample nodes edges iterations = Raise ZeroDivisionError) \/
  (max_of (retained nodes edges).*2 = 0%R /\
   simulate sample nodes edges iterations = Raise ZeroDivisionError) \/
  (nodes <> [] /\ max_of (retained nodes edges).*2 <> 0%R /\
   exists positions,
     simulate sample nodes edges iterations
     = Ok (positions, (initial_temperature * 0.98 ^ Z.to_nat iterations)%R) /\
     length positions = length nodes).
Proof.
  destruct nodes as [|nd nodes].
  - left. split; [reflexivity|apply simulate_no_nodes].
  - right. destruct (Req_dec_T (max_of (retained (nd :: nodes) edges).*2) 0) as [Hz|Hnz].
    + left. split; [exact Hz|]. rewrite simulate_retained. cbv zeta.
      pose proof (max_of_nil_nonzero _ Hz) as Hne. rewrite Hz.
      destruct ((retained (nd :: nodes) edges).*2) as [|w ws]; [congruence|].
      rewrite normalize_weights_zero. reflexivity.
    + right. split; [discriminate|]. split; [exact Hnz|].
      apply simulate_ok; [discriminate|exact Hnz].
Qed.

Lemma simulate_zero_iterations sample nodes edges iterations :
  (iterations <= 0)%Z -> nodes <> [] -> max_of (retained nodes edges).*2 <> 0%R ->
  simulate sample nodes edges iterations
  = Ok (initial_positions sample (length nodes), initial_temperature).
Proof.
  intros Hit Hn Hm. rewrite simulate_retained. cbv zeta.
  rewrite normalize_weights_ok by exact Hm. cbn [bind].
  assert (Hlen : length nodes <> 0) by (destruct nodes; [congruence|simpl; lia]).
  rewrite py_div_ok by (apply not_0_INR; exact Hlen). cbn [bind].
  replace (Z.to_nat iterations) with 0 by lia. reflexivity.
Qed.

(** ** Loops with a body that changes nothing *)

Lemma for_each_app {A S} (body : A -> S -> outcome S) xs ys s :
  for_each body (xs ++ ys) s = let* s' := for_each body xs s in for_each body ys s'.
Proof.
  revert s. induction xs as [|x xs IH]; intros s; simpl; [reflexivity|].
  destruct (body x s); simpl; [apply IH|reflexivity..].
Qed.

Lemma for_each_skip {A S} (body : A -> S -> outcome S) x xs ys s :
  (forall s', body x s' = Ok s') ->
  for_each body (xs ++ x :: ys) s = for_each body (xs ++ ys) s.
Proof.
  intros H. rewrite !for_each_app. destruct (for_each body xs s); simpl; try reflexivity.
  rewrite H. reflexivity.
Qed.

Lemma attract_self_loop k positions i w ds :
  i < length positions -> attract_edge k positions (i, i, w) ds = Ok ds.
Proof.
  intros Hi. unfold attract_edge. rewrite !get_row_ok by exact Hi. cbn [bind].
  rewrite vsub_self, norm_zero. destruct (Rlt_dec 0 0); [lra|reflexivity].
Qed.

Lemma attractive_force_self_loop k positions i w :
  attractive_force k positions i i w = vzero.
Proof.
  unfold attractive_force. rewrite vsub_self, norm_zero.
  destruct (Rlt_dec 0 0); [lra|reflexivity].
Qed.

Lemma step_skip_self_loop k n positions i w ep1 ew1 ep2 ew2 temperature :
  i < length positions -> length ep1 = length ew1 ->
  step k n (ep1 ++ (i, i) :: ep2) (ew1 ++ w :: ew2) (positions, temperature)
  = step k n (ep1 ++ ep2) (ew1 ++ ew2) (positions, temperature).
Proof.
  intros Hi Hlen. unfold step, compute_displacements, attraction.
  destruct (repulsion k n positions (replicate n vzero)) as [ds| |]; cbn [bind];
    [|reflexivity..].
  rewrite (zip_with_app pair ep1 ((i, i) :: ep2) ew1 (w :: ew2) Hlen).
  rewrite (zip_with_app pair ep1 ep2 ew1 ew2 Hlen). cbn [zip_with].
  rewrite (for_each_skip (attract_edge k positions) (i, i, w)); [reflexivity|].
  intros ds'. apply attract_self_loop. exact Hi.
Qed.

(** ** The definitions on small inputs *)

Example pairs_3 : pairs 3 = [(0, 1); (0, 2); (1, 2)].
Proof. reflexivity. Qed.

Example id_to_idx_last_wins :
  id_to_idx [mkNode "a"; mkNode "b"; mkNode "a"] !! "a" = Some 2 /\
  id_to_idx [mkNode "a"; mkNode "b"; mkNode "a"] !! "b" = Some 1 /\
  id_to_idx [mkNode "a"; mkNode "b"; mkNode "a"] !! "ghost" = None.
Proof. repeat split; vm_compute; reflexivity. Qed.

Example ghost_edge_dropped :
  resolve_edges (id_to_idx [mkNode "A"; mkNode "B"]) [mkEdge "A" "ghost" 5] = ([], []) /\
  resolve_edges (id_to_idx [mkNode "A"; mkNode "B"])
                [mkEdge "A" "ghost" 5; mkEdge "B" "A" 2; mkEdge "B" "B" 3]
  = ([(1, 0); (1, 1)], [2%R; 3%R]).
Proof. split; reflexivity. Qed.

Lemma norm_3_4_0 a b c :
  (a * a + b * b + c * c = 5 * 5)%R -> norm (mkVec a b c) = 5%R.
Proof. intros H. unfold norm; simpl. rewrite H. apply sqrt_square. lra. Qed.

(** Two nodes at distance 5, [k = 1], one edge of normalized weight 1:
    node 0 is pushed away from node 1 by [1 / 5] and pulled toward it by
    [25]. *)
Example net_force_two_nodes :
  net_force 1 [vzero; mkVec 3 4 0] [(0, 1, 1%R)] 0 = mkVec 14.88 19.84 0 /\
  net_force 1 [vzero; mkVec 3 4 0] [(0, 1, 1%R)] 1 = mkVec (-14.88) (-19.84) 0.
Proof.
  unfold net_force, repulsive_force, attractive_force, contrib; simpl.
  change (vsub vzero (mkVec 3 4 0)) with (mkVec (0 - 3) (0 - 4) (0 - 0)).
  change (vsub (mkVec 3 4 0) vzero) with (mkVec (3 - 0) (4 - 0) (0 - 0)).
  rewrite !(norm_3_4_0 (0 - 3) (0 - 4) (0 - 0)) by ring.
  rewrite !(norm_3_4_0 (3 - 0) (4 - 0) (0 - 0)) by ring.
  destruct (Rlt_dec 0 5); [|lra].
  split; vec.
Qed.

Example move_is_capped :
  move 10 (mkVec 30 40 0) = mkVec 6 8 0 /\ move 10 (mkVec 3 4 0) = mkVec 3 4 0 /\
  move 10 vzero = vzero.
Proof.
  unfold move. rewrite norm_zero.
  rewrite (norm_3_4_0 3 4 0) by ring.
  replace (norm (mkVec 30 40 0)) with 50%R.
  2:{ unfold norm; simpl. replace (30 * 30 + 40 * 40 + 0 * 0)%R with (50 * 50)%R by ring.
      symmetry; apply sqrt_square; lra. }
  destruct (Rlt_dec 0 50); [|lra]. destruct (Rlt_dec 0 5); [|lra].
  destruct (Rlt_dec 0 0); [lra|].
  rewrite (Rmin_right 50 10), (Rmin_left 5 10) by lra.
  repeat split; vec.
Qed.

(** * The claims *)

(** C1.  In every step the displacement field is the sum of the forces:
    the two loops return, for every node [v], the sum over the unordered
    pairs [i < j] of distinct nodes of the repulsive force of the pair
    ([+] at [i], [-] at [j]) plus the sum over the retained edges of the
    attractive force of the edge ([+] at its first node, [-] at its second).
    The repulsive force of a pair at distance [d > 0] has magnitude
    [k * k / d] along [(position[i] - position[j]) / d]; the attractive
    force of an edge at distance [d > 0] has magnitude
    [(d * d / k) * (0.5 + 0.5 * weight)] along
    [(position[j] - position[i]) / d]; at distance [0] both are zero. *)
Theorem displacement_field_is_sum_of_forces
    (k : R) (n : nat) (edge_pairs : list (nat * nat)) (edge_weights : list R)
    (positions : list Vec3) :
  (0 < k)%R -> length positions = n -> in_range n edge_pairs ->
  compute_displacements k n edge_pairs edge_weights positions
  = Ok (map (net_force k positions (zip edge_pairs edge_weights)) (seq 0 n)) /\
  (forall i j, (i, j) ∈ pairs n <-> i < j < n) /\
  NoDup (pairs n) /\
  (forall v i j f,
     (v = i -> v <> j -> contrib v i j f = f) /\
     (v <> i -> v = j -> contrib v i j f = vsub vzero f) /\
     (v <> i -> v <> j -> contrib v i j f = vzero)) /\
  (forall i j,
     let delta := vsub (positions !!! i) (positions !!! j) in
     let distance := norm delta in
     ((0 < distance)%R ->
        repulsive_force k positions i j
        = vscale (vscale delta (/ distance)) (k * k / distance) /\
        norm (vscale delta (/ distance)) = 1%R /\
        norm (repulsive_force k positions i j) = (k * k / distance)%R) /\
     (distance = 0%R -> repulsive_force k positions i j = vzero)) /\
  (forall i j w,
     let delta := vsub (positions !!! j) (positions !!! i) in
     let distance := norm delta in
     ((0 < distance)%R ->
        attractive_force k positions i j w
        = vscale (vscale delta (/ distance))
                 (distance * distance / k * (0.5 + 0.5 * w)) /\
        norm (vscale delta (/ distance)) = 1%R /\
        ((0 <= w)%R ->
         norm (attractive_force k positions i j w)
         = (distance * distance / k * (0.5 + 0.5 * w))%R)) /\
     (distance = 0%R -> attractive_force k positions i j w = vzero)).
Proof.
  intros Hk Hn Hes.
  split; [apply compute_displacements_ok; [lra|exact Hn|exact Hes]|].
  split; [intros i j; apply elem_of_pairs|].
  split; [apply NoDup_pairs|].
  split; [intros v i j f; pose proof (contrib_cases v i j f); tauto|].
  split; [intros i j; apply repulsive_force_cases|].
  intros i j w delta distance.
  destruct (attractive_force_cases k positions i j w) as [H1 H2].
  split; [|exact H2].
  intros Hd. destruct (H1 Hd) as (E & U & N).
  split; [exact E|]. split; [exact U|]. intros Hw. apply N; assumption.
Qed.

Lemma displacement_field_is_sum_of_forces_witness :
  compute_displacements 1 2 [(0, 1)] [1%R] [vzero; mkVec 3 4 0]
  = Ok (map (net_force 1 [vzero; mkVec 3 4 0] (zip [(0, 1)] [1%R])) (seq 0 2)).
Proof.
  apply (displacement_field_is_sum_of_forces 1 2 [(0, 1)] [1%R] [vzero; mkVec 3 4 0]).
  - lra.
  - reflexivity.
  - repeat constructor; simpl; lia.
Defined.

(** C2.  Normalization with half-range [target_range >= 0].  When the
    largest absolute coordinate [max_coord] is positive, every coordinate of
    every node is multiplied by the one factor [target_range / max_coord];
    afterwards every coordinate lies in [[-target_range, target_range]] and
    one of them is [target_range] or [-target_range].  When [max_coord] is
    zero the positions come back unchanged.  In both cases the result is the
    input scaled by one factor [s >= 0] (positive when [target_range] is),
    so all distances between nodes are multiplied by [s] and all inner
    products of difference vectors by [s * s]: ratios of distances and
    angles are kept. *)
Theorem normalize_positions_rescales
    (positions : list Vec3) (target_range max_coord : R) :
  (0 <= target_range)%R ->
  np_max (map Rabs (coords positions)) = Ok max_coord ->
  (0 <= max_coord)%R /\
  ((0 < max_coord)%R ->
     normalize_positions positions target_range
     = Ok (map (fun v => vscale v (target_range / max_coord)) positions) /\
     (forall c, c ∈ coords (map (fun v => vscale v (target_range / max_coord)) positions) ->
                (- target_range <= c <= target_range)%R) /\
     (exists c, c ∈ coords (map (fun v => vscale v (target_range / max_coord)) positions) /\
                (c = target_range \/ c = (- target_range)%R))) /\
  (max_coord = 0%R -> normalize_positions positions target_range = Ok positions) /\
  (exists s, (0 <= s)%R /\ ((0 < target_range)%R -> (0 < s)%R) /\
     normalize_positions positions target_range
     = Ok (map (fun v => vscale v s) positions) /\
     (forall a b, norm (vsub (vscale a s) (vscale b s)) = (s * norm (vsub a b))%R) /\
     (forall a b c d,
        vdot (vsub (vscale a s) (vscale b s)) (vsub (vscale c s) (vscale d s))
        = (s * s * vdot (vsub a b) (vsub c d))%R)).
Proof.
  intros HR Hm.
  destruct (max_coord_spec positions max_coord Hm) as (Hnonneg & _ & _).
  split; [exact Hnonneg|].
  split.
  { intros Hpos. split; [apply normalize_positions_scaled; assumption|].
    apply scaled_coords_bounded; assumption. }
  split.
  { intros ->. apply normalize_positions_unchanged. exact Hm. }
  destruct (Rlt_dec 0 max_coord) as [Hpos|Hzero].
  - exists (target_range / max_coord)%R.
    assert (Hinv : (0 < / max_coord)%R) by (apply Rinv_0_lt_compat; exact Hpos).
    assert (Hs : (0 <= target_range / max_coord)%R)
      by (apply Rmult_le_pos; lra).
    split; [exact Hs|].
    split; [intros HR'; apply Rmult_lt_0_compat; assumption|].
    split; [apply normalize_positions_scaled; assumption|].
    split; [intros a b; apply norm_vsub_scale; exact Hs|].
    intros a b c d. apply vdot_vsub_scale.
  - assert (max_coord = 0%R) by lra. subst max_coord.
    exists 1%R. split; [lra|]. split; [lra|].
    split; [rewrite map_vscale_one; apply normalize_positions_unchanged; exact Hm|].
    split; [intros a b; apply norm_vsub_scale; lra|].
    intros a b c d. apply vdot_vsub_scale.
Qed.

Lemma normalize_positions_rescales_witness :
  normalize_positions [mkVec 1 (-3) 2] 15
  = Ok (map (fun v => vscale v (15 / 3)) [mkVec 1 (-3) 2]).
Proof.
  assert (Hm : np_max (map Rabs (coords [mkVec 1 (-3) 2])) = Ok 3%R).
  { simpl. f_equal.
    rewrite (Rabs_pos_eq 1), (Rabs_left (-3)), (Rabs_pos_eq 2) by lra.
    unfold Rmax. repeat (destruct (Rle_dec _ _); try lra). }
  apply (normalize_positions_rescales [mkVec 1 (-3) 2] 15 3); [lra|exact Hm|lra].
Defined.

(** C3.  Along a run, the temperature after [t] steps is [10 * 0.98 ^ t],
    which is positive; step [t + 1] moves each node [i] whose accumulated
    displacement [d] has length [len > 0] by exactly
    [(d / len) * min(len, temperature)], leaves a node with [len = 0] where
    it is, moves no node farther than the temperature, and multiplies the
    temperature by [0.98]. *)
Theorem step_is_capped_by_temperature
    (k : R) (n : nat) (edge_pairs : list (nat * nat)) (edge_weights : list R)
    (positions0 : list Vec3) (t : nat) :
  (0 < k)%R -> length positions0 = n -> in_range n edge_pairs ->
  let temperature := (initial_temperature * 0.98 ^ t)%R in
  initial_temperature = 10%R /\
  (0 < temperature)%R /\
  exists positions displacements positions',
    iterate k n edge_pairs edge_weights t (positions0, initial_temperature)
    = Ok (positions, temperature) /\
    compute_displacements k n edge_pairs edge_weights positions = Ok displacements /\
    step k n edge_pairs edge_weights (positions, temperature)
    = Ok (positions', (temperature * 0.98)%R) /\
    iterate k n edge_pairs edge_weights (S t) (positions0, initial_temperature)
    = Ok (positions', (initial_temperature * 0.98 ^ S t)%R) /\
    length positions = n /\ length displacements = n /\ length positions' = n /\
    forall i, i < n ->
      let d := displacements !!! i in
      let len := norm d in
      ((0 < len)%R ->
         positions' !!! i
         = vadd (positions !!! i) (vscale (vscale d (/ len)) (Rmin len temperature))) /\
      (len = 0%R -> positions' !!! i = positions !!! i) /\
      (norm (vsub (positions' !!! i) (positions !!! i)) <= temperature)%R.
Proof.
  intros Hk Hn Hes temperature.
  assert (Hk' : k <> 0%R) by lra.
  assert (HT : (0 < temperature)%R).
  { unfold temperature, initial_temperature.
    apply Rmult_lt_0_compat; [lra|apply pow_098_pos]. }
  split; [reflexivity|]. split; [exact HT|].
  destruct (iterate_ok k n edge_pairs edge_weights t positions0 initial_temperature
              Hk' Hn Hes) as (ps & Eit & Lps).
  fold temperature in Eit.
  exists ps, (map (net_force k ps (zip edge_pairs edge_weights)) (seq 0 n)).
  eexists.
  split; [exact Eit|].
  split; [apply compute_displacements_ok; assumption|].
  split; [apply step_ok; assumption|].
  split.
  { rewrite iterate_snoc, Eit. cbn [bind]. rewrite step_ok by assumption.
    f_equal. f_equal. unfold temperature. simpl. ring. }
  split; [exact Lps|].
  split; [rewrite length_map, length_seq; reflexivity|].
  split; [rewrite length_map, length_seq; reflexivity|].
  intros i Hi d len.
  rewrite (lookup_total_tabulate _ n i Hi).
  assert (Ed : d = net_force k ps (zip edge_pairs edge_weights) i)
    by (unfold d; apply lookup_total_tabulate; exact Hi).
  rewrite <- Ed.
  split; [|split].
  - intros Hlen. unfold move. fold len. destruct (Rlt_dec 0 len); [reflexivity|contradiction].
  - intros Hlen. unfold move. fold len. destruct (Rlt_dec 0 len); [lra|apply vadd_zero_r].
  - rewrite vsub_vadd_l. apply norm_move_le. lra.
Qed.

Lemma step_is_capped_by_temperature_witness :
  (0 < initial_temperature * 0.98 ^ 3)%R.
Proof.
  apply (step_is_capped_by_temperature 1 2 [(0, 1)] [1%R] [vzero; mkVec 3 4 0] 3).
  - lra.
  - reflexivity.
  - repeat constructor; simpl; lia.
Defined.

(** C4 (as the code has it).  For a graph of one node and no edges the
    loop is not skipped: it runs, every step finds a zero displacement and
    leaves the node at its initial random position [5 * sample 0], and the
    temperature still cools.  Normalization then rescales that position: the
    result is [(0, 0, 0)] when the initial draw was zero, and otherwise a
    defined position whose largest coordinate is [15] or [-15]. *)
Theorem single_node_keeps_initial_position
    (sample : nat -> Vec3) (nd : Node) (iterations : Z) :
  simulate sample [nd] [] iterations
  = Ok ([vscale (sample 0) 5],
        (initial_temperature * 0.98 ^ Z.to_nat iterations)%R) /\
  force_directed_3d sample [nd] [] iterations = Ok [vscale (sample 0) 5] /\
  layout sample [nd] [] = normalize_positions [vscale (sample 0) 5] 15 /\
  (sample 0 = vzero -> layout sample [nd] [] = Ok [vzero]) /\
  (sample 0 <> vzero ->
     exists q, layout sample [nd] [] = Ok [q] /\ q <> vzero /\
       (forall c, c ∈ [vx q; vy q; vz q] -> (- 15 <= c <= 15)%R) /\
       (exists c, c ∈ [vx q; vy q; vz q] /\ (c = 15%R \/ c = (- 15)%R))).
Proof.
  assert (Hf : forall it, force_directed_3d sample [nd] [] it = Ok [vscale (sample 0) 5]).
  { intros it. unfold force_directed_3d. rewrite simulate_single_node. reflexivity. }
  assert (Hl : layout sample [nd] [] = normalize_positions [vscale (sample 0) 5] 15).
  { unfold layout. rewrite Hf. reflexivity. }
  split; [apply simulate_single_node|]. split; [apply Hf|]. split; [exact Hl|].
  split.
  - intros Hs. rewrite Hl, Hs, vscale_zero.
    apply normalize_positions_unchanged. simpl. rewrite Rabs_R0.
    rewrite !(Rmax_left 0 0) by lra. reflexivity.
  - intros Hs. rewrite Hl.
    assert (Hp : vscale (sample 0) 5 <> vzero).
    { intros E. apply Hs. apply vec_ext; simpl;
        [apply (f_equal vx) in E|apply (f_equal vy) in E|apply (f_equal vz) in E];
        simpl in E; lra. }
    destruct (normalize_single_nonzero _ 15 Hp) as (q & Eq & Hb & c & Hc & Hv); [lra|].
    exists q. split; [exact Eq|]. split; [|split; [exact Hb|exists c; auto]].
    intros ->. simpl in Hc.
    repeat (apply elem_of_cons in Hc as [->|Hc]; [lra|]). inversion Hc.
Qed.

Lemma single_node_keeps_initial_position_witness :
  layout (fun _ => vzero) [mkNode "a"] [] = Ok [vzero].
Proof.
  apply (single_node_keeps_initial_position (fun _ => vzero) (mkNode "a") 500).
  reflexivity.
Defined.

(** C4, counterexample.  One node, no edge, the draw [(1, 0, 0)]: the
    position after normalization is not [(0, 0, 0)]. *)
Lemma single_node_not_at_origin :
  layout (fun _ => mkVec 1 0 0) [mkNode "a"] [] <> Ok [vzero].
Proof.
  unfold layout, force_directed_3d. rewrite simulate_single_node. cbn [bind fst].
  destruct (normalize_single_nonzero (vscale (mkVec 1 0 0) 5) 15)
    as (q & Eq & _ & c & Hc & Hv).
  - intros E. apply (f_equal vx) in E. simpl in E. lra.
  - lra.
  - rewrite Eq. intros E. inversion E; subst. simpl in Hc.
    repeat (apply elem_of_cons in Hc as [->|Hc]; [lra|]). inversion Hc.
Qed.

(** C5.  An empty node list does not come back as an empty array: the
    division [area / n] raises [ZeroDivisionError], whatever the edges and
    the iteration count. *)
Theorem empty_graph_raises
    (sample : nat -> Vec3) (edges : list Edge) (iterations : Z) :
  force_directed_3d sample [] edges iterations = Raise ZeroDivisionError /\
  layout sample [] edges = Raise ZeroDivisionError.
Proof.
  unfold layout, force_directed_3d. rewrite !simulate_no_nodes. split; reflexivity.
Qed.

(** C6.  Id resolution retains exactly the edges both of whose ids are ids
    of input nodes, each as (index of its source, index of its target,
    weight), in input order; an edge with an unknown source or target is
    left out without any error, and the run (positions and temperature
    after any number of steps) is the same with it as without it. *)
Theorem unresolved_edges_are_dropped
    (sample : nat -> Vec3) (nodes : list Node) (edges : list Edge) :
  let idx := id_to_idx nodes in
  resolve_edges idx edges = ((retained nodes edges).*1, (retained nodes edges).*2) /\
  zip (resolve_edges idx edges).1 (resolve_edges idx edges).2 = retained nodes edges /\
  retained nodes edges
  = map (fun e => (idx !!! source e, idx !!! target e, weight e))
        (filter (fun e => resolvable nodes e = true) edges) /\
  (forall e,
     known nodes (source e) -> known nodes (target e) ->
     exists i j,
       resolve_edge idx e = Some (i, j, weight e) /\
       i < length nodes /\ j < length nodes /\
       node_id <$> nodes !! i = Some (source e) /\
       node_id <$> nodes !! j = Some (target e)) /\
  (forall e,
     ~ known nodes (source e) \/ ~ known nodes (target e) ->
     resolve_edge idx e = None /\
     forall e1 e2 iterations,
       resolve_edges idx (e1 ++ e :: e2) = resolve_edges idx (e1 ++ e2) /\
       simulate sample nodes (e1 ++ e :: e2) iterations
       = simulate sample nodes (e1 ++ e2) iterations /\
       force_directed_3d sample nodes (e1 ++ e :: e2) iterations
       = force_directed_3d sample nodes (e1 ++ e2) iterations) /\
  (forall iterations,
     force_directed_3d sample nodes edges iterations
     = force_directed_3d sample nodes
         (filter (fun e => resolvable nodes e = true) edges) iterations).
Proof.
  intros idx.
  split; [apply resolve_edges_retained|].
  split; [unfold idx; rewrite resolve_edges_retained; apply zip_fst_snd|].
  split; [apply retained_as_filter|].
  split.
  { intros e Hs Ht. destruct (resolve_edge_known nodes e Hs Ht) as (i & j & E).
    exists i, j. split; [exact E|].
    apply resolve_edge_Some in E as (_ & _ & Hi & Hj & (n1 & L1 & I1) & (n2 & L2 & I2)).
    simpl in *. rewrite L1, L2. simpl. rewrite I1, I2. auto. }
  split.
  { intros e He.
    assert (Hr : resolvable nodes e = false).
    { unfold resolvable. apply andb_false_iff.
      destruct He as [H|H]; [left|right]; apply bool_decide_eq_false_2; exact H. }
    split; [apply resolve_edge_None; exact Hr|].
    intros e1 e2 iterations.
    pose proof (retained_drop nodes e e1 e2 Hr) as Hd.
    split; [unfold idx; rewrite !resolve_edges_retained, Hd; reflexivity|].
    split; [apply simulate_same_retained; exact Hd|].
    unfold force_directed_3d.
    rewrite (simulate_same_retained _ _ _ _ _ Hd). reflexivity. }
  intros iterations. unfold force_directed_3d.
  rewrite (simulate_same_retained sample nodes edges
             (filter (fun e => resolvable nodes e = true) edges) iterations);
    [reflexivity|].
  symmetry. apply retained_filter.
Qed.

Lemma unresolved_edges_are_dropped_witness :
  resolve_edge (id_to_idx [mkNode "A"; mkNode "B"]) (mkEdge "A" "ghost" 5) = None /\
  forall iterations,
    force_directed_3d (fun _ => mkVec 1 2 3) [mkNode "A"; mkNode "B"]
                      [mkEdge "A" "ghost" 5] iterations
    = force_directed_3d (fun _ => mkVec 1 2 3) [mkNode "A"; mkNode "B"] [] iterations.
Proof.
  destruct (unresolved_edges_are_dropped (fun _ => mkVec 1 2 3)
              [mkNode "A"; mkNode "B"] [mkEdge "A" "ghost" 5])
    as (_ & _ & _ & _ & H & _).
  destruct (H (mkEdge "A" "ghost" 5)) as [E D].
  - right. unfold known. simpl. intros G.
    repeat (apply elem_of_cons in G as [G|G]; [discriminate|]). inversion G.
  - split; [exact E|]. intros iterations. apply (D [] [] iterations).
Defined.

(** C7.  With positive weights, the weights the loop works with are the raw
    weights of the retained edges divided by their maximum (by [1] when no
    edge is retained); the divisor is positive, every normalized weight
    lies in [[0, 1]], and when all retained weights are equal every
    normalized weight is [1]. *)
Theorem normalized_weights_in_unit_interval
    (nodes : list Node) (edges : list Edge) :
  Forall (fun e => 0 < weight e)%R edges ->
  let ws := (resolve_edges (id_to_idx nodes) edges).2 in
  let max_weight := max_of ws in
  ws = (retained nodes edges).*2 /\
  normalize_weights ws max_weight = Ok (map (fun w => w / max_weight)%R ws) /\
  (ws = [] -> max_weight = 1%R) /\
  (ws <> [] -> max_weight ∈ ws /\ forall w, w ∈ ws -> (w <= max_weight)%R) /\
  (0 < max_weight)%R /\
  (forall q, q ∈ map (fun w => w / max_weight)%R ws -> (0 <= q <= 1)%R) /\
  ((forall w w', w ∈ ws -> w' ∈ ws -> w = w') ->
   forall q, q ∈ map (fun w => w / max_weight)%R ws -> q = 1%R).
Proof.
  intros Hpos ws max_weight.
  assert (Ews : ws = (retained nodes edges).*2)
    by (unfold ws; rewrite resolve_edges_retained; reflexivity).
  assert (Hws : Forall (fun w => 0 < w)%R ws)
    by (rewrite Ews; apply retained_weights_positive; exact Hpos).
  assert (Hmax : (0 < max_weight)%R) by (apply max_of_pos; exact Hws).
  split; [exact Ews|].
  split; [apply normalize_weights_ok; lra|].
  split; [intros E; unfold max_weight; rewrite E; reflexivity|].
  split.
  { intros Hne. split; [apply max_of_elem; exact Hne|].
    intros w Hw. apply max_of_upper; exact Hw. }
  split; [exact Hmax|].
  assert (Hinv : (0 < / max_weight)%R) by (apply Rinv_0_lt_compat; exact Hmax).
  split.
  - intros q Hq. apply list_elem_of_fmap in Hq as (w & -> & Hw).
    pose proof (max_of_upper ws w Hw) as Hub. fold max_weight in Hub.
    rewrite Forall_forall in Hws. specialize (Hws w Hw). simpl in Hws.
    split.
    + apply Rmult_le_pos; lra.
    + apply (Rmult_le_reg_r max_weight); [exact Hmax|].
      replace (w / max_weight * max_weight)%R with w by (field; lra). lra.
  - intros Heq q Hq. apply list_elem_of_fmap in Hq as (w & -> & Hw).
    assert (Hne : ws <> []) by (intros E; rewrite E in Hw; inversion Hw).
    rewrite (Heq w max_weight Hw (max_of_elem ws Hne)). field. lra.
Qed.

Lemma normalized_weights_in_unit_interval_witness :
  (0 < max_of (resolve_edges (id_to_idx [mkNode "a"; mkNode "b"])
                 [mkEdge "a" "b" 5; mkEdge "b" "a" 2]).2)%R.
Proof.
  apply (normalized_weights_in_unit_interval
           [mkNode "a"; mkNode "b"] [mkEdge "a" "b" 5; mkEdge "b" "a" 2]).
  repeat constructor; simpl; lra.
Defined.

(** C8.  No run performs a numpy division by zero, whatever the graph
    (any number of nodes; duplicate edges, self-loops and unknown ids
    allowed) and whatever the number of iterations: the run never leaves the
    real numbers.  With at least one node and positive weights, the position
    array after any number of completed iterations is defined and has one
    row per node; with no node the run stops before its first step. *)
Theorem positions_stay_defined
    (sample : nat -> Vec3) (nodes : list Node) (edges : list Edge) (iterations : Z) :
  simulate sample nodes edges iterations <> NonFinite /\
  force_directed_3d sample nodes edges iterations <> NonFinite /\
  (nodes <> [] -> Forall (fun e => 0 < weight e)%R edges ->
   exists positions,
     force_directed_3d sample nodes edges iterations = Ok positions /\
     length positions = length nodes) /\
  (nodes = [] ->
   force_directed_3d sample nodes edges iterations = Raise ZeroDivisionError).
Proof.
  split; [|split; [|split]].
  - destruct (simulate_cases sample nodes edges iterations)
      as [[_ E]|[[_ E]|(_ & _ & ps & E & _)]]; rewrite E; discriminate.
  - unfold force_directed_3d.
    destruct (simulate_cases sample nodes edges iterations)
      as [[_ E]|[[_ E]|(_ & _ & ps & E & _)]]; rewrite E; discriminate.
  - intros Hn Hpos. unfold force_directed_3d.
    destruct (simulate_ok sample nodes edges iterations Hn) as (ps & E & L).
    + pose proof (max_of_pos _ (retained_weights_positive nodes edges Hpos)). lra.
    + exists ps. rewrite E. split; [reflexivity|exact L].
  - intros ->. unfold force_directed_3d. rewrite simulate_no_nodes. reflexivity.
Qed.

Lemma positions_stay_defined_witness :
  exists positions,
    force_directed_3d (fun _ => mkVec 1 2 3) [mkNode "a"; mkNode "b"]
                      [mkEdge "a" "b" 5; mkEdge "a" "b" 5; mkEdge "b" "b" 1] 500
    = Ok positions /\
    length positions = 2.
Proof.
  apply (positions_stay_defined (fun _ => mkVec 1 2 3) [mkNode "a"; mkNode "b"]
           [mkEdge "a" "b" 5; mkEdge "a" "b" 5; mkEdge "b" "b" 1] 500).
  - discriminate.
  - repeat constructor; simpl; lra.
Defined.

(** C9 (as the code has it).  Nothing validates the configuration.  The
    area and the cooling factor are the constants [100] and [0.98] of the
    function body, and a non-positive iteration count is accepted: the loop
    body runs no time and the initial positions are returned. *)
Theorem nonpositive_iterations_are_accepted
    (sample : nat -> Vec3) (nodes : list Node) (edges : list Edge) (iterations : Z) :
  (iterations <= 0)%Z -> nodes <> [] -> Forall (fun e => 0 < weight e)%R edges ->
  simulate sample nodes edges iterations
  = Ok (initial_positions sample (length nodes), initial_temperature) /\
  force_directed_3d sample nodes edges iterations
  = Ok (initial_positions sample (length nodes)) /\
  area = 100%R /\
  (forall k n ep ew positions temperature st,
     step k n ep ew (positions, temperature) = Ok st ->
     st.2 = (temperature * 0.98)%R).
Proof.
  intros Hit Hn Hpos.
  assert (E : simulate sample nodes edges iterations
              = Ok (initial_positions sample (length nodes), initial_temperature)).
  { apply simulate_zero_iterations; [exact Hit|exact Hn|].
    pose proof (max_of_pos _ (retained_weights_positive nodes edges Hpos)). lra. }
  split; [exact E|]. split; [unfold force_directed_3d; rewrite E; reflexivity|].
  split; [reflexivity|].
  intros k n ep ew positions temperature st. unfold step.
  destruct (compute_displacements k n ep ew positions) as [ds| |]; cbn [bind];
    [|discriminate..].
  destruct (apply_displacements n temperature ds positions) as [ps| |]; cbn [bind];
    [|discriminate..].
  intros H; inversion H; reflexivity.
Qed.

Lemma nonpositive_iterations_are_accepted_witness :
  force_directed_3d (fun _ => mkVec 1 2 3) [mkNode "a"; mkNode "b"]
                    [mkEdge "a" "b" 5] (-5)
  = Ok (initial_positions (fun _ => mkVec 1 2 3) 2).
Proof.
  apply (nonpositive_iterations_are_accepted (fun _ => mkVec 1 2 3)
           [mkNode "a"; mkNode "b"] [mkEdge "a" "b" 5] (-5)).
  - lia.
  - discriminate.
  - repeat constructor; simpl; lra.
Defined.

(** C9, counterexample.  The iteration count [-5] is not rejected: the call
    returns the initial positions. *)
Lemma negative_iterations_not_rejected :
  force_directed_3d (fun _ => mkVec 1 2 3) [mkNode "a"] [] (-5)
  = Ok [vscale (mkVec 1 2 3) 5].
Proof.
  unfold force_directed_3d. rewrite simulate_zero_iterations.
  - reflexivity.
  - lia.
  - discriminate.
  - simpl. lra.
Qed.

(** C10.  A self-loop on a known node [i] is retained as [(i, i, weight)],
    so its weight is among those the maximum is taken over; in every step
    the distance it sees is zero, its attractive force is zero, its pass
    through the attraction loop leaves the displacement array as it was, and
    the step is the same as with the self-loop taken out of the retained
    lists. *)
Theorem self_loop_pulls_nothing (nodes : list Node) (e : Edge) :
  source e = target e -> known nodes (source e) ->
  exists i, i < length nodes /\
    resolve_edge (id_to_idx nodes) e = Some (i, i, weight e) /\
    (forall e1 e2,
       retained nodes (e1 ++ e :: e2)
       = retained nodes e1 ++ (i, i, weight e) :: retained nodes e2) /\
    (forall e1 e2,
       (resolve_edges (id_to_idx nodes) (e1 ++ e :: e2)).2
       = (resolve_edges (id_to_idx nodes) e1).2 ++ weight e
           :: (resolve_edges (id_to_idx nodes) e2).2) /\
    forall k positions w, length positions = length nodes ->
      norm (vsub (positions !!! i) (positions !!! i)) = 0%R /\
      attractive_force k positions i i w = vzero /\
      (forall displacements,
         attract_edge k positions (i, i, w) displacements = Ok displacements) /\
      (forall ep1 ew1 ep2 ew2 temperature, length ep1 = length ew1 ->
         step k (length nodes) (ep1 ++ (i, i) :: ep2) (ew1 ++ w :: ew2)
              (positions, temperature)
         = step k (length nodes) (ep1 ++ ep2) (ew1 ++ ew2) (positions, temperature)).
Proof.
  intros Hst Hk.
  assert (Hk' : known nodes (target e)) by (rewrite <- Hst; exact Hk).
  apply id_to_idx_is_Some in Hk as [i Hi].
  assert (E : resolve_edge (id_to_idx nodes) e = Some (i, i, weight e))
    by (unfold resolve_edge; rewrite <- Hst, Hi; reflexivity).
  assert (Hr : forall e1 e2,
             retained nodes (e1 ++ e :: e2)
             = retained nodes e1 ++ (i, i, weight e) :: retained nodes e2).
  { intros e1 e2. rewrite retained_app. f_equal.
    unfold retained. cbn [omap list_omap]. rewrite E. reflexivity. }
  exists i. split; [apply (id_to_idx_Some _ _ _ Hi)|].
  split; [exact E|]. split; [exact Hr|].
  split.
  { intros e1 e2. rewrite !resolve_edges_retained. cbn [snd].
    rewrite Hr, fmap_app. reflexivity. }
  intros k positions w Hlen.
  assert (Hi' : i < length positions)
    by (rewrite Hlen; apply (id_to_idx_Some _ _ _ Hi)).
  split; [rewrite vsub_self; apply norm_zero|].
  split; [apply attractive_force_self_loop|].
  split; [intros ds; apply attract_self_loop; exact Hi'|].
  intros ep1 ew1 ep2 ew2 T Hl. apply step_skip_self_loop; assumption.
Qed.

Lemma self_loop_pulls_nothing_witness :
  exists i, i < 2 /\
    resolve_edge (id_to_idx [mkNode "a"; mkNode "b"]) (mkEdge "b" "b" 7)
    = Some (i, i, 7%R).
Proof.
  destruct (self_loop_pulls_nothing [mkNode "a"; mkNode "b"] (mkEdge "b" "b" 7))
    as (i & Hi & E & _).
  - reflexivity.
  - unfold known. simpl. apply elem_of_cons. right. apply elem_of_cons. left. reflexivity.
  - exists i. split; [exact Hi|exact E].
Defined.

(** * Further properties of the layout engine *)

(** ** Loop invariants *)

Lemma for_each_invariant {A S} (P : S -> Prop) (body : A -> S -> outcome S) xs :
  (forall x s s', P s -> body x s = Ok s' -> P s') ->
  forall s s', P s -> for_each body xs s = Ok s' -> P s'.
Proof.
  intros Hbody. induction xs as [|x xs IH]; intros s s' Hs; simpl.
  - intros E; inversion E; subst; exact Hs.
  - destruct (body x s) as [s1| |] eqn:E1; simpl; try discriminate.
    apply IH. exact (Hbody x s s1 Hs E1).
Qed.

Lemma vsum_cons a vs : vsum (a :: vs) = vadd a (vsum vs).
Proof. reflexivity. Qed.

Lemma vsum_insert (ds : list Vec3) : forall i x,
  i < length ds ->
  vsum (<[i := x]> ds) = vadd (vsub (vsum ds) (ds !!! i)) x.
Proof.
  induction ds as [|d ds IH]; intros i x Hi; simpl in Hi; [lia|].
  destruct i as [|i].
  - cbn [insert list_insert]. rewrite !vsum_cons.
    change ((d :: ds) !!! 0) with d. vec.
  - change (<[S i := x]> (d :: ds)) with (d :: <[i := x]> ds).
    rewrite !vsum_cons, IH by lia.
    change ((d :: ds) !!! S i) with (ds !!! i). vec.
Qed.

Lemma get_row_inv (a : list Vec3) i v :
  get_row a i = Ok v -> i < length a /\ a !!! i = v.
Proof.
  unfold get_row. destruct (a !! i) as [r|] eqn:E; [|discriminate].
  intros H; inversion H; subst. split.
  - apply lookup_lt_Some in E. exact E.
  - apply list_lookup_total_correct. exact E.
Qed.

Lemma pair_update_keeps_sum (ds ds' : list Vec3) i j f :
  (let* d := iadd_row ds i f in isub_row d j f) = Ok ds' ->
  vsum ds' = vsum ds /\ length ds' = length ds.
Proof.
  unfold iadd_row, isub_row.
  destruct (get_row ds i) as [r| |] eqn:E1; simpl; try discriminate.
  destruct (get_row (<[i := vadd r f]> ds) j) as [r'| |] eqn:E2; simpl; try discriminate.
  intros H; inversion H; subst.
  apply get_row_inv in E1 as [Hi <-]. apply get_row_inv in E2 as [Hj <-].
  split; [|rewrite !length_insert; reflexivity].
  rewrite vsum_insert by exact Hj. rewrite vsum_insert by exact Hi. vec.
Qed.

Lemma vsum_replicate_zero n : vsum (replicate n vzero) = vzero.
Proof.
  induction n as [|n IH]; [reflexivity|].
  change (replicate (S n) vzero) with (vzero :: replicate n vzero).
  rewrite vsum_cons, IH. apply vadd_zero_l.
Qed.

Lemma repulse_pair_keeps_sum k positions i j ds ds' :
  repulse_pair k positions i j ds = Ok ds' -> vsum ds' = vsum ds.
Proof.
  unfold repulse_pair.
  destruct (get_row positions i) as [p_i| |]; simpl; try discriminate.
  destruct (get_row positions j) as [p_j| |]; simpl; try discriminate.
  destruct (Rlt_dec 0 (norm (vsub p_i p_j))); [|intros H; inversion H; reflexivity].
  destruct (np_div (k * k) (norm (vsub p_i p_j))) as [force| |]; simpl; try discriminate.
  destruct (np_vdiv (vsub p_i p_j) (norm (vsub p_i p_j))) as [direction| |];
    simpl; try discriminate.
  intros H. apply pair_update_keeps_sum in H. tauto.
Qed.

Lemma attract_edge_keeps_sum k positions e ds ds' :
  attract_edge k positions e ds = Ok ds' -> vsum ds' = vsum ds.
Proof.
  destruct e as [[i j] w]. unfold attract_edge.
  destruct (get_row positions j) as [p_j| |]; simpl; try discriminate.
  destruct (get_row positions i) as [p_i| |]; simpl; try discriminate.
  destruct (Rlt_dec 0 (norm (vsub p_j p_i))); [|intros H; inversion H; reflexivity].
  destruct (np_div (norm (vsub p_j p_i) * norm (vsub p_j p_i)) k) as [q| |];
    simpl; try discriminate.
  destruct (np_vdiv (vsub p_j p_i) (norm (vsub p_j p_i))) as [direction| |];
    simpl; try discriminate.
  intros H. apply pair_update_keeps_sum in H. tauto.
Qed.

Lemma compute_displacements_sum_zero k n ep ew positions ds :
  compute_displacements k n ep ew positions = Ok ds -> vsum ds = vzero.
Proof.
  unfold compute_displacements, repulsion, attraction.
  destruct (for_each _ (seq 0 n) (replicate n vzero)) as [ds1| |] eqn:E1;
    simpl; try discriminate.
  intros E2.
  assert (H1 : vsum ds1 = vzero).
  { revert E1. apply (for_each_invariant (fun ds => vsum ds = vzero));
      [|apply vsum_replicate_zero].
    intros i s s' Hs. apply (for_each_invariant (fun ds => vsum ds = vzero));
      [|exact Hs].
    intros j s0 s0' Hs0 Hb. rewrite (repulse_pair_keeps_sum _ _ _ _ _ _ Hb). exact Hs0. }
  revert E2. apply (for_each_invariant (fun ds => vsum ds = vzero)); [|exact H1].
  intros e s s' Hs Hb. rewrite (attract_edge_keeps_sum _ _ _ _ _ Hb). exact Hs.
Qed.

(** ** The dictionary on distinct ids *)

Lemma id_to_idx_snoc nodes nd :
  id_to_idx (nodes ++ [nd]) = <[node_id nd := length nodes]> (id_to_idx nodes).
Proof.
  unfold id_to_idx. rewrite length_app. simpl.
  rewrite Nat.add_1_r, seq_S. simpl.
  rewrite (zip_with_app pair (seq 0 (length nodes)) [length nodes] nodes [nd])
    by apply length_seq.
  rewrite fold_left_app. reflexivity.
Qed.

Lemma id_to_idx_last nodes : forall s i,
  id_to_idx nodes !! s = Some i ->
  forall j nd, i < j -> nodes !! j = Some nd -> node_id nd <> s.
Proof.
  induction nodes as [|x nodes IH] using rev_ind; intros s i H j nd Hij Hj.
  - inversion Hj.
  - rewrite id_to_idx_snoc in H.
    destruct (decide (node_id x = s)) as [E|N].
    + subst s. rewrite lookup_insert_eq in H. inversion H; subst.
      apply lookup_lt_Some in Hj. rewrite length_app in Hj. simpl in Hj. lia.
    + rewrite lookup_insert_ne in H by exact N.
      destruct (decide (j < length nodes)) as [Hlt|Hge].
      * rewrite lookup_app_l in Hj by exact Hlt. exact (IH s i H j nd Hij Hj).
      * rewrite lookup_app_r in Hj by lia.
        destruct (j - length nodes) as [|m]; simpl in Hj; [|inversion Hj].
        inversion Hj; subst. exact N.
Qed.

Lemma id_to_idx_distinct nodes i nd :
  NoDup (map node_id nodes) -> nodes !! i = Some nd ->
  id_to_idx nodes !! node_id nd = Some i.
Proof.
  intros Hnd Hi.
  assert (Hk : known nodes (node_id nd)).
  { unfold known. apply list_elem_of_fmap. exists nd. split; [reflexivity|].
    apply list_elem_of_lookup. exists i. exact Hi. }
  apply id_to_idx_is_Some in Hk as [i' Hi'].
  destruct (id_to_idx_Some _ _ _ Hi') as (_ & nd' & Hl & Hid).
  assert (E : i' = i).
  { apply (NoDup_lookup (map node_id nodes) i' i (node_id nd) Hnd).
    - change (map node_id nodes) with (node_id <$> nodes).
      rewrite list_lookup_fmap, Hl. simpl. rewrite Hid. reflexivity.
    - change (map node_id nodes) with (node_id <$> nodes).
      rewrite list_lookup_fmap, Hi. reflexivity. }
  rewrite Hi', E. reflexivity.
Qed.

(** ** Which runs raise *)


(** ** Edges have no direction *)

Lemma norm_vsub_sym a b : norm (vsub a b) = norm (vsub b a).
Proof. unfold norm, vsub; simpl. f_equal. ring. Qed.

Lemma contrib_attract_swap k positions v i j w :
  contrib v j i (attractive_force k positions j i w)
  = contrib v i j (attractive_force k positions i j w).
Proof.
  unfold contrib, attractive_force.
  rewrite (norm_vsub_sym (positions !!! i) (positions !!! j)).
  destruct (Rlt_dec 0 (norm (vsub (positions !!! j) (positions !!! i))));
    destruct (decide (v = i)), (decide (v = j)); vec.
Qed.

Lemma net_force_swap k positions es1 es2 i j w v :
  net_force k positions (es1 ++ (j, i, w) :: es2) v
  = net_force k positions (es1 ++ (i, j, w) :: es2) v.
Proof.
  unfold net_force. f_equal.
  rewrite !map_app, !vsum_app. f_equal. simpl. f_equal.
  apply contrib_attract_swap.
Qed.

Lemma iterate_congr k n ep ep' ew :
  k <> 0%R -> in_range n ep -> in_range n ep' ->
  (forall positions v, length positions = n ->
     net_force k positions (zip ep ew) v = net_force k positions (zip ep' ew) v) ->
  forall t positions temperature, length positions = n ->
    iterate k n ep ew t (positions, temperature)
    = iterate k n ep' ew t (positions, temperature).
Proof.
  intros Hk Hr Hr' Hnet t. induction t as [|t IH]; intros ps T Hn; [reflexivity|].
  cbn [iterate]. rewrite !step_ok by assumption. cbn [bind].
  assert (E : map (fun v => vadd (ps !!! v) (move T (net_force k ps (zip ep ew) v)))
                  (seq 0 n)
              = map (fun v => vadd (ps !!! v) (move T (net_force k ps (zip ep' ew) v)))
                    (seq 0 n)).
  { apply map_ext. intros v. rewrite Hnet by exact Hn. reflexivity. }
  rewrite E. apply IH. rewrite length_map, length_seq. reflexivity.
Qed.

Lemma resolve_reverse_edge idx e :
  resolve_edge idx (reverse_edge e)
  = (fun t => (t.1.2, t.1.1, t.2)) <$> resolve_edge idx e.
Proof.
  unfold resolve_edge, reverse_edge. simpl.
  destruct (idx !! source e), (idx !! target e); reflexivity.
Qed.

Lemma in_range_app n xs ys : in_range n (xs ++ ys) <-> in_range n xs /\ in_range n ys.
Proof. unfold in_range. apply Forall_app. Qed.

Lemma retained_cons nodes e es :
  retained nodes (e :: es)
  = match resolve_edge (id_to_idx nodes) e with
    | Some t => t :: retained nodes es
    | None => retained nodes es
    end.
Proof. reflexivity. Qed.

Lemma simulate_reverse_edge sample nodes e e1 e2 iterations :
  simulate sample nodes (e1 ++ reverse_edge e :: e2) iterations
  = simulate sample nodes (e1 ++ e :: e2) iterations.
Proof.
  destruct nodes as [|nd nodes]; [rewrite !simulate_no_nodes; reflexivity|].
  set (ns := nd :: nodes).
  rewrite !simulate_retained. cbv zeta.
  rewrite !(retained_app ns e1), !retained_cons, resolve_reverse_edge.
  destruct (resolve_edge (id_to_idx ns) e) as [[[i j] w]|] eqn:Er; [|reflexivity].
  cbn [fmap option_fmap option_map fst snd].
  set (r1 := retained ns e1). set (r2 := retained ns e2).
  rewrite !fmap_app, !fmap_cons. cbn [fst snd].
  set (m := max_of (r1.*2 ++ w :: r2.*2)).
  destruct (normalize_weights (r1.*2 ++ w :: r2.*2) m) as [ew| |] eqn:En;
    cbn [bind]; [|reflexivity..].
  rewrite py_div_ok by (apply not_0_INR; discriminate). cbn [bind].
  assert (Hm : m <> 0%R).
  { intros Hz. rewrite Hz in En.
    destruct (r1.*2 ++ w :: r2.*2) as [|w0 ws0] eqn:Ews;
      [destruct (r1.*2); discriminate|].
    rewrite normalize_weights_zero in En. discriminate. }
  rewrite normalize_weights_ok in En by exact Hm. inversion En as [Eew]. clear En.
  assert (Hr1 : in_range (length ns) r1.*1) by apply retained_in_range.
  assert (Hr2 : in_range (length ns) r2.*1) by apply retained_in_range.
  apply resolve_edge_Some in Er as (_ & _ & Hi & Hj & _). simpl in Hi, Hj.
  apply iterate_congr.
  - pose proof (k_positive (length ns)) as Hk.
    assert (length ns <> 0) by discriminate. specialize (Hk H). lra.
  - apply in_range_app. split; [exact Hr1|]. constructor; [simpl; lia|exact Hr2].
  - apply in_range_app. split; [exact Hr1|]. constructor; [simpl; lia|exact Hr2].
  - intros ps v _. rewrite !map_app. cbn [map].
    rewrite !(zip_with_app pair r1.*1 _ (map (fun w0 => (w0 / m)%R) r1.*2))
      by (rewrite length_map, !length_fmap; reflexivity).
    cbn [zip_with]. apply net_force_swap.
  - apply initial_positions_length.
Qed.

(** ** How far a node can travel *)

Lemma vdot_le_norms a b : (vdot a b <= norm a * norm b)%R.
Proof.
  pose proof (norm_nonneg a) as Ha. pose proof (norm_nonneg b) as Hb.
  pose proof (norm_sqr a) as Sa. pose proof (norm_sqr b) as Sb.
  assert (CS : (vdot a b * vdot a b <= (norm a * norm b) * (norm a * norm b))%R).
  { replace ((norm a * norm b) * (norm a * norm b))%R
      with ((norm a * norm a) * (norm b * norm b))%R by ring.
    rewrite Sa, Sb. unfold vdot.
    destruct a as [a1 a2 a3], b as [b1 b2 b3]; simpl.
    pose proof (Rle_0_sqr (a1 * b2 - a2 * b1)).
    pose proof (Rle_0_sqr (a1 * b3 - a3 * b1)).
    pose proof (Rle_0_sqr (a2 * b3 - a3 * b2)).
    unfold Rsqr in *. nra. }
  assert (Hp : (0 <= norm a * norm b)%R) by (apply Rmult_le_pos; assumption).
  destruct (Rle_dec (vdot a b) (norm a * norm b)) as [H|H]; [exact H|].
  exfalso. apply Rnot_le_lt in H. nra.
Qed.

Lemma norm_triangle a b : (norm (vadd a b) <= norm a + norm b)%R.
Proof.
  pose proof (norm_nonneg a) as Ha. pose proof (norm_nonneg b) as Hb.
  rewrite <- (sqrt_square (norm a + norm b)) by lra.
  unfold norm at 1. apply sqrt_le_1_alt.
  pose proof (vdot_le_norms a b) as Hd.
  pose proof (norm_sqr a) as Sa. pose proof (norm_sqr b) as Sb.
  unfold vdot in *. unfold vadd; simpl. nra.
Qed.

Lemma drift_step (p0 p m : Vec3) bound temperature :
  (norm (vsub p p0) <= bound)%R -> (norm m <= temperature)%R ->
  (norm (vsub (vadd p m) p0) <= bound + temperature)%R.
Proof.
  intros H1 H2. replace (vsub (vadd p m) p0) with (vadd (vsub p p0) m) by vec.
  pose proof (norm_triangle (vsub p p0) m). lra.
Qed.

Lemma iterate_drift k n ep ew positions0 temperature0 t :
  k <> 0%R -> length positions0 = n -> in_range n ep -> (0 <= temperature0)%R ->
  exists positions,
    iterate k n ep ew t (positions0, temperature0)
    = Ok (positions, (temperature0 * 0.98 ^ t)%R) /\
    length positions = n /\
    forall i, i < n ->
      (norm (vsub (positions !!! i) (positions0 !!! i))
       <= 50 * temperature0 * (1 - 0.98 ^ t))%R.
Proof.
  intros Hk Hn Hr HT. induction t as [|t IH].
  - exists positions0. split; [simpl; f_equal; f_equal; lra|]. split; [exact Hn|].
    intros i _. rewrite vsub_self, norm_zero. simpl. lra.
  - destruct IH as (ps & E & L & D).
    eexists. rewrite iterate_snoc, E. cbn [bind]. rewrite step_ok by assumption.
    split; [f_equal; f_equal; simpl; ring|].
    split; [rewrite length_map, length_seq; reflexivity|].
    intros i Hi. rewrite lookup_total_tabulate by exact Hi.
    assert (HTt : (0 <= temperature0 * 0.98 ^ t)%R)
      by (apply Rmult_le_pos; [exact HT|left; apply pow_098_pos]).
    pose proof (drift_step (positions0 !!! i) (ps !!! i)
                  (move (temperature0 * 0.98 ^ t)
                        (net_force k ps (zip ep ew) i))
                  _ _ (D i Hi) (norm_move_le _ _ HTt)) as H.
    simpl. lra.
Qed.

(** ** Moving the whole cloud *)

Lemma translate_length c positions : length (translate c positions) = length positions.
Proof. unfold translate. apply length_map. Qed.

Lemma translate_lookup c (positions : list Vec3) i :
  i < length positions -> translate c positions !!! i = vadd (positions !!! i) c.
Proof.
  intros Hi. unfold translate.
  change (map (fun p => vadd p c) positions) with ((fun p => vadd p c) <$> positions).
  exact (list_lookup_total_fmap (fun p => vadd p c) positions i Hi).
Qed.

Lemma vsub_translate a b c : vsub (vadd a c) (vadd b c) = vsub a b.
Proof. vec. Qed.

Lemma repulsive_force_translate k c positions i j :
  i < length positions -> j < length positions ->
  repulsive_force k (translate c positions) i j = repulsive_force k positions i j.
Proof.
  intros Hi Hj. unfold repulsive_force.
  rewrite !translate_lookup, vsub_translate by assumption. reflexivity.
Qed.

Lemma attractive_force_translate k c positions i j w :
  i < length positions -> j < length positions ->
  attractive_force k (translate c positions) i j w = attractive_force k positions i j w.
Proof.
  intros Hi Hj. unfold attractive_force.
  rewrite !translate_lookup, vsub_translate by assumption. reflexivity.
Qed.

Lemma vsum_map_ext {A} (f g : A -> Vec3) (xs : list A) :
  (forall x, x ∈ xs -> f x = g x) -> vsum (map f xs) = vsum (map g xs).
Proof.
  intros H. f_equal. apply map_ext_in. intros x Hx. apply H.
  apply list_elem_of_In. exact Hx.
Qed.

Lemma net_force_translate k c positions es v :
  Forall (fun e => e.1.1 < length positions /\ e.1.2 < length positions) es ->
  net_force k (translate c positions) es v = net_force k positions es v.
Proof.
  intros Hes. unfold net_force. rewrite translate_length. f_equal.
  - apply vsum_map_ext. intros [i j] Hp. simpl.
    apply elem_of_pairs in Hp. rewrite repulsive_force_translate by lia. reflexivity.
  - apply vsum_map_ext. intros [[i j] w] He. simpl.
    rewrite Forall_forall in Hes. specialize (Hes _ He). simpl in Hes.
    rewrite attractive_force_translate by tauto. reflexivity.
Qed.

Lemma zip_in_range n ep (ew : list R) :
  in_range n ep -> Forall (fun e => e.1.1 < n /\ e.1.2 < n) (zip ep ew).
Proof.
  intros H. apply Forall_forall. intros [[i j] w] Hin. simpl.
  apply elem_of_zip_l in Hin. simpl in Hin.
  unfold in_range in H. rewrite Forall_forall in H. exact (H (i, j) Hin).
Qed.

Lemma translate_tabulate c (g : nat -> Vec3) n :
  translate c (map g (seq 0 n)) = map (fun v => vadd (g v) c) (seq 0 n).
Proof. unfold translate. rewrite map_map. reflexivity. Qed.

Lemma iterate_translate k n ep ew c t : forall positions temperature,
  k <> 0%R -> length positions = n -> in_range n ep ->
  exists positions',
    iterate k n ep ew t (positions, temperature)
    = Ok (positions', (temperature * 0.98 ^ t)%R) /\
    iterate k n ep ew t (translate c positions, temperature)
    = Ok (translate c positions', (temperature * 0.98 ^ t)%R) /\
    length positions' = n.
Proof.
  induction t as [|t IH]; intros ps T Hk Hn Hr.
  - exists ps. simpl. rewrite Rmult_1_r. auto.
  - cbn [iterate]. rewrite !step_ok; try assumption;
      [|rewrite translate_length; exact Hn].
    cbn [bind].
    assert (E : map (fun v => vadd (translate c ps !!! v)
                                 (move T (net_force k (translate c ps) (zip ep ew) v)))
                    (seq 0 n)
                = translate c
                    (map (fun v => vadd (ps !!! v)
                                        (move T (net_force k ps (zip ep ew) v)))
                         (seq 0 n))).
    { rewrite translate_tabulate. apply map_ext_in. intros v Hv. apply in_seq in Hv.
      rewrite translate_lookup by lia.
      rewrite net_force_translate by (rewrite Hn; apply zip_in_range; exact Hr).
      vec. }
    rewrite E.
    destruct (IH (map (fun v => vadd (ps !!! v)
                                     (move T (net_force k ps (zip ep ew) v)))
                      (seq 0 n)) (T * 0.98)%R Hk)
      as (ps' & E1 & E2 & L); [rewrite length_map, length_seq; reflexivity|exact Hr|].
    exists ps'. rewrite E1, E2.
    replace (T * 0.98 * 0.98 ^ t)%R with (T * 0.98 ^ S t)%R by (simpl; ring).
    auto.
Qed.

Lemma initial_positions_translate sample c n :
  initial_positions (fun i => vadd (sample i) c) n
  = translate (vscale c 5) (initial_positions sample n).
Proof.
  unfold initial_positions, translate. rewrite map_map.
  apply map_ext. intros i. vec.
Qed.


(** ** Normalization, applied twice and to a scaled array *)

Lemma np_max_unique xs m :
  m ∈ xs -> (forall x, x ∈ xs -> (x <= m)%R) -> np_max xs = Ok m.
Proof.
  intros Hin Hub. destruct (np_max xs) as [m'| |] eqn:E.
  - apply np_max_spec in E as [Hin' Hub'].
    pose proof (Hub _ Hin'). pose proof (Hub' _ Hin). f_equal. lra.
  - destruct xs; [inversion Hin|discriminate].
  - destruct xs; discriminate.
Qed.

Lemma np_max_coords_ok p positions :
  exists m, np_max (map Rabs (coords (p :: positions))) = Ok m.
Proof. simpl. eexists. reflexivity. Qed.

Lemma normalize_positions_empty target_range :
  normalize_positions [] target_range = Raise ValueError.
Proof. reflexivity. Qed.

Lemma normalize_positions_total positions target_range :
  positions <> [] ->
  exists s, normalize_positions positions target_range
            = Ok (map (fun v => vscale v s) positions).
Proof.
  intros Hne. destruct positions as [|p ps]; [congruence|].
  destruct (np_max_coords_ok p ps) as [m Hm].
  destruct (max_coord_spec _ _ Hm) as (Hnonneg & _ & _).
  destruct (Rlt_dec 0 m) as [Hpos|Hz].
  - exists (target_range / m)%R. apply normalize_positions_scaled; assumption.
  - assert (m = 0%R) by lra. subst m. exists 1%R.
    rewrite map_vscale_one. apply normalize_positions_unchanged. exact Hm.
Qed.

Lemma max_coord_scaled positions m s :
  np_max (map Rabs (coords positions)) = Ok m ->
  np_max (map Rabs (coords (map (fun v => vscale v s) positions)))
  = Ok (m * Rabs s)%R.
Proof.
  intros Hm. apply max_coord_spec in Hm as (Hnonneg & (c0 & Hc0 & E0) & Hub).
  rewrite coords_scale. apply np_max_unique.
  - apply list_elem_of_fmap. exists (c0 * s)%R. split.
    + rewrite Rabs_mult, E0. reflexivity.
    + apply list_elem_of_fmap. exists c0. auto.
  - intros x Hx. apply list_elem_of_fmap in Hx as (y & -> & Hy).
    apply list_elem_of_fmap in Hy as (c & -> & Hc).
    rewrite Rabs_mult. apply Rmult_le_compat_r; [apply Rabs_pos|apply Hub, Hc].
Qed.

Lemma map_vscale_vscale (positions : list Vec3) s s' :
  map (fun v => vscale v s') (map (fun v => vscale v s) positions)
  = map (fun v => vscale v (s * s')) positions.
Proof. rewrite map_map. apply map_ext. intros v. vec. Qed.

Lemma map_vscale_zeros (positions : list Vec3) s :
  Forall (fun v => v = vzero) positions ->
  map (fun v => vscale v s) positions = positions.
Proof.
  intros H. induction H as [|v ps Hv _ IH]; [reflexivity|].
  simpl. rewrite IH, Hv, vscale_zero. reflexivity.
Qed.




Lemma distinct_ids_a_b : NoDup (map node_id [mkNode "a"; mkNode "b"]).
Proof.
  simpl. apply NoDup_cons. split; [|apply NoDup_singleton].
  intros G. apply elem_of_cons in G as [G|G]; [discriminate|inversion G].
Qed.

(** ** [main]: attaching the positions and measuring the edges *)

Lemma attach_ok (nodes : list Node) : forall i (positions : list Vec3),
  i + length nodes <= length positions ->
  attach nodes i positions = Ok (zip nodes (drop i positions)).
Proof.
  induction nodes as [|nd nodes IH]; intros i ps H; [reflexivity|].
  cbn [length] in H. cbn [attach].
  rewrite get_row_ok by lia. cbn [bind]. rewrite IH by lia. cbn [bind].
  assert (Hl : ps !! i = Some (ps !!! i))
    by (apply list_lookup_lookup_total_lt; lia).
  rewrite (drop_S ps (ps !!! i) i Hl). reflexivity.
Qed.

Lemma attach_all nodes (positions : list Vec3) :
  length positions = length nodes ->
  attach nodes 0 positions = Ok (zip nodes positions).
Proof. intros H. rewrite attach_ok by lia. rewrite drop_0. reflexivity. Qed.

Lemma first_with_id_known nodes (positions : list Vec3) s :
  length positions = length nodes -> known nodes s ->
  exists np, first_with_id (zip nodes positions) s = Finished np /\
             np ∈ zip nodes positions /\ node_id np.1 = s.
Proof.
  intros Hlen Hk. unfold first_with_id.
  destruct (find _ (zip nodes positions)) as [np|] eqn:E.
  - exists np. split; [reflexivity|]. apply find_some in E as [Hin Hb].
    split; [apply list_elem_of_In; exact Hin|]. apply bool_decide_eq_true_1 in Hb. exact Hb.
  - exfalso. unfold known in Hk. apply list_elem_of_fmap in Hk as (nd & -> & Hnd).
    apply list_elem_of_lookup in Hnd as [i Hi].
    destruct (lookup_lt_is_Some_2 positions i) as [p Hp];
      [rewrite Hlen; apply lookup_lt_Some in Hi; exact Hi|].
    assert (Hin : (nd, p) ∈ zip nodes positions).
    { apply list_elem_of_lookup. exists i. apply lookup_zip_with_Some. eauto. }
    apply list_elem_of_In in Hin.
    pose proof (find_none _ _ E _ Hin) as Hb. simpl in Hb.
    apply bool_decide_eq_false_1 in Hb. congruence.
Qed.

Lemma first_with_id_unknown nodes (positions : list Vec3) s :
  ~ known nodes s -> first_with_id (zip nodes positions) s = CaughtStopIteration.
Proof.
  intros Hk. unfold first_with_id.
  destruct (find _ (zip nodes positions)) as [np|] eqn:E; [|reflexivity].
  exfalso. apply Hk. apply find_some in E as [Hin Hb].
  apply bool_decide_eq_true_1 in Hb. rewrite <- Hb.
  apply list_elem_of_In in Hin. destruct np as [nd p].
  apply elem_of_zip_l in Hin. unfold known. simpl.
  apply list_elem_of_fmap. exists nd. auto.
Qed.

Lemma resolvable_true nodes e :
  resolvable nodes e = true <-> known nodes (source e) /\ known nodes (target e).
Proof.
  unfold resolvable. rewrite andb_true_iff, !bool_decide_eq_true. reflexivity.
Qed.

Lemma connected_distances_ok nodes (positions : list Vec3) edges :
  length positions = length nodes ->
  Forall (fun e => resolvable nodes e = true) edges ->
  exists dists,
    connected_distances (zip nodes positions) edges = Finished dists /\
    length dists = length edges /\
    forall d, d ∈ dists ->
      exists p q, p ∈ positions /\ q ∈ positions /\ d = norm (vsub p q).
Proof.
  intros Hlen H. induction H as [|e edges He _ IH].
  - exists []. split; [reflexivity|]. split; [reflexivity|]. intros d Hd. inversion Hd.
  - destruct IH as (dists & E & L & Hd).
    apply resolvable_true in He as [Hs Ht].
    destruct (first_with_id_known nodes positions _ Hlen Hs) as (s & Es & Hsin & _).
    destruct (first_with_id_known nodes positions _ Hlen Ht) as (t & Et & Htin & _).
    eexists. cbn [connected_distances]. unfold edge_distance.
    rewrite Es, Et. cbn [and_then]. rewrite E. cbn [and_then].
    split; [reflexivity|]. split; [simpl; rewrite L; reflexivity|].
    intros d Hin. apply elem_of_cons in Hin as [->|Hin]; [|apply Hd, Hin].
    destruct s as [ns p], t as [nt q]. exists p, q.
    apply elem_of_zip_r in Hsin. apply elem_of_zip_r in Htin.
    split; [exact Hsin|]. split; [exact Htin|]. reflexivity.
Qed.

Lemma connected_distances_stop nodes (positions : list Vec3) edges :
  length positions = length nodes ->
  ~ Forall (fun e => resolvable nodes e = true) edges ->
  connected_distances (zip nodes positions) edges = CaughtStopIteration.
Proof.
  intros Hlen. induction edges as [|e edges IH]; intros H.
  - exfalso. apply H. constructor.
  - cbn [connected_distances]. unfold edge_distance.
    destruct (decide (known nodes (source e))) as [Hs|Hs];
      [|rewrite first_with_id_unknown by exact Hs; reflexivity].
    destruct (first_with_id_known nodes positions _ Hlen Hs) as (s & Es & _).
    rewrite Es. cbn [and_then].
    destruct (decide (known nodes (target e))) as [Ht|Ht];
      [|rewrite first_with_id_unknown by exact Ht; reflexivity].
    destruct (first_with_id_known nodes positions _ Hlen Ht) as (t & Et & _).
    rewrite Et. cbn [and_then]. rewrite IH; [reflexivity|].
    intros Hall. apply H. constructor; [|exact Hall].
    apply resolvable_true. tauto.
Qed.

Lemma retained_all nodes edges :
  Forall (fun e => resolvable nodes e = true) edges ->
  (retained nodes edges).*2 = map weight edges /\
  length (retained nodes edges) = length edges.
Proof.
  intros H. rewrite retained_as_filter.
  assert (E : filter (fun e => resolvable nodes e = true) edges = edges).
  { induction H as [|e edges He _ IH]; [reflexivity|].
    rewrite filter_cons_True by exact He. rewrite IH. reflexivity. }
  rewrite E. split; [|apply length_map].
  clear H E. induction edges as [|e edges IH]; [reflexivity|]. cbn. f_equal. exact IH.
Qed.

Lemma coords_of_row (p : Vec3) positions c :
  p ∈ positions -> c ∈ [vx p; vy p; vz p] -> c ∈ coords positions.
Proof.
  intros Hp Hc. unfold coords. apply list_elem_of_In, in_flat_map.
  exists p. split; apply list_elem_of_In; assumption.
Qed.

Lemma normalize_positions_bounded positions target_range :
  positions <> [] -> (0 <= target_range)%R ->
  exists out,
    normalize_positions positions target_range = Ok out /\
    length out = length positions /\
    forall c, c ∈ coords out -> (- target_range <= c <= target_range)%R.
Proof.
  intros Hne HR. destruct positions as [|p ps]; [congruence|].
  destruct (np_max_coords_ok p ps) as [m Hm].
  remember (p :: ps) as l eqn:El. clear El Hne.
  destruct (max_coord_spec _ _ Hm) as (Hnonneg & _ & Hub).
  destruct (Rlt_dec 0 m) as [Hpos|Hz].
  - eexists. split; [apply normalize_positions_scaled; eassumption|].
    split; [apply length_map|]. apply scaled_coords_bounded; assumption.
  - assert (m = 0%R) by lra. subst m. exists l.
    split; [apply normalize_positions_unchanged; exact Hm|]. split; [reflexivity|].
    intros c Hc. specialize (Hub c Hc). apply Rabs_le_bounds in Hub. lra.
Qed.

Lemma fold_min_spec (xs : list R) : forall x,
  (fold_left Rmin xs x <= x)%R /\
  (forall y, y ∈ xs -> (fold_left Rmin xs x <= y)%R) /\
  fold_left Rmin xs x ∈ x :: xs.
Proof.
  induction xs as [|y xs IH]; intros x; simpl.
  - split; [lra|]. split; [intros y Hy; inversion Hy|left].
  - destruct (IH (Rmin x y)) as (H1 & H2 & H3).
    pose proof (Rmin_l x y). pose proof (Rmin_r x y).
    split; [lra|]. split.
    + intros z Hz. apply elem_of_cons in Hz as [->|Hz]; [lra|apply H2, Hz].
    + apply elem_of_cons in H3 as [E|H3].
      * rewrite E. unfold Rmin. destruct (Rle_dec x y); [left|right; left].
      * right; right; exact H3.
Qed.

Lemma py_min_spec xs m :
  py_min xs = Ok m -> m ∈ xs /\ forall x, x ∈ xs -> (m <= x)%R.
Proof.
  destruct xs as [|x xs]; simpl; [discriminate|].
  intros H; inversion H; subst.
  destruct (fold_min_spec xs x) as (H1 & H2 & H3). split; [exact H3|].
  intros y Hy. apply elem_of_cons in Hy as [->|Hy]; [exact H1|apply H2, Hy].
Qed.

Lemma coordinate_range_ok x xs :
  exists lo hi, coordinate_range (x :: xs) = Ok (lo, hi).
Proof. unfold coordinate_range. simpl. eexists; eexists; reflexivity. Qed.

Lemma rsum_bounds (xs : list R) a b :
  (forall x, x ∈ xs -> (a <= x <= b)%R) ->
  (a * INR (length xs) <= rsum xs <= b * INR (length xs))%R.
Proof.
  induction xs as [|x xs IH]; intros H.
  - simpl. lra.
  - change (rsum (x :: xs)) with (x + rsum xs)%R.
    change (length (x :: xs)) with (S (length xs)). rewrite S_INR.
    assert (Hx : (a <= x <= b)%R) by (apply H; left).
    assert (Hxs : forall y, y ∈ xs -> (a <= y <= b)%R) by (intros y Hy; apply H; right; exact Hy).
    specialize (IH Hxs). lra.
Qed.

Lemma mean_bounds (xs : list R) a b :
  xs <> [] -> (forall x, x ∈ xs -> (a <= x <= b)%R) -> (a <= mean xs <= b)%R.
Proof.
  intros Hne H. pose proof (rsum_bounds xs a b H) as [Hlo Hhi].
  assert (Hn : (0 < INR (length xs))%R)
    by (apply lt_0_INR; destruct xs; [congruence|simpl; lia]).
  unfold mean. split.
  - apply (Rmult_le_reg_r (INR (length xs))); [exact Hn|].
    replace (rsum xs / INR (length xs) * INR (length xs))%R with (rsum xs) by (field; lra).
    exact Hlo.
  - apply (Rmult_le_reg_r (INR (length xs))); [exact Hn|].
    replace (rsum xs / INR (length xs) * INR (length xs))%R with (rsum xs) by (field; lra).
    exact Hhi.
Qed.

Lemma edge_statistics_ok d ds :
  exists avg lo hi,
    edge_statistics (d :: ds) = Ok (avg, lo, hi) /\
    avg = mean (d :: ds) /\
    lo ∈ d :: ds /\ hi ∈ d :: ds /\
    (forall x, x ∈ d :: ds -> (lo <= x <= hi)%R) /\
    (lo <= avg <= hi)%R.
Proof.
  unfold edge_statistics.
  destruct (py_min (d :: ds)) as [lo| |] eqn:Emin; try discriminate.
  destruct (py_max (d :: ds)) as [hi| |] eqn:Emax; try discriminate.
  cbn [bind]. exists (mean (d :: ds)), lo, hi.
  apply py_min_spec in Emin as [Hlo Hlb]. apply (np_max_spec (d :: ds)) in Emax as [Hhi Hub].
  assert (Hb : forall x, x ∈ d :: ds -> (lo <= x <= hi)%R)
    by (intros x Hx; split; [apply Hlb|apply Hub]; exact Hx).
  repeat split; try assumption; try (apply Hb; assumption);
    apply (mean_bounds (d :: ds) lo hi); try discriminate; exact Hb.
Qed.

Lemma distance_in_cube (p q : Vec3) b :
  (forall c, c ∈ [vx p; vy p; vz p] -> (- b <= c <= b)%R) ->
  (forall c, c ∈ [vx q; vy q; vz q] -> (- b <= c <= b)%R) ->
  (0 <= norm (vsub p q) <= sqrt (12 * (b * b)))%R.
Proof.
  intros Hp Hq. split; [apply norm_nonneg|].
  unfold norm. apply sqrt_le_1_alt. simpl.
  assert (Hx := Hp (vx p) ltac:(left)).
  assert (Hy := Hp (vy p) ltac:(right; left)).
  assert (Hz := Hp (vz p) ltac:(right; right; left)).
  assert (Hx' := Hq (vx q) ltac:(left)).
  assert (Hy' := Hq (vy q) ltac:(right; left)).
  assert (Hz' := Hq (vz q) ltac:(right; right; left)).
  assert (S : forall u v, (- b <= u <= b)%R -> (- b <= v <= b)%R ->
                          ((u - v) * (u - v) <= 4 * (b * b))%R) by (intros; nra).
  pose proof (S _ _ Hx Hx'). pose proof (S _ _ Hy Hy'). pose proof (S _ _ Hz Hz'). lra.
Qed.

Lemma main_report_layout_raises sample nodes edges :
  nodes = [] \/ max_of (retained nodes edges).*2 = 0%R ->
  main_report sample nodes edges = Caught ZeroDivisionError.
Proof.
  intros H. unfold main_report, force_directed_3d.
  destruct (simulate_cases sample nodes edges 500)
    as [[_ E]|[[_ E]|(Hn & Hm & _)]]; try (rewrite E; reflexivity).
  destruct H; contradiction.
Qed.

Lemma main_report_after_layout sample nodes edges :
  nodes <> [] -> max_of (retained nodes edges).*2 <> 0%R ->
  exists out xr yr zr,
    layout sample nodes edges = Ok out /\
    length out = length nodes /\
    (forall c, c ∈ coords out -> (- 15 <= c <= 15)%R) /\
    main_report sample nodes edges
    = and_then (connected_distances (zip nodes out) edges) (fun dists =>
      and_then (lift (edge_statistics dists)) (fun stats =>
      Finished (mkReport (zip nodes out) xr yr zr stats.1.1 stats.1.2 stats.2))).
Proof.
  intros Hn Hm. unfold main_report, layout, force_directed_3d.
  destruct (simulate_ok sample nodes edges 500 Hn Hm) as (ps & E & L).
  rewrite E. cbn [bind lift and_then fst].
  assert (Hps : ps <> []) by (intros ->; destruct nodes; [congruence|discriminate]).
  destruct (normalize_positions_bounded ps 15 Hps) as (out & En & Lo & Hb); [lra|].
  rewrite En. cbn [lift and_then].
  rewrite attach_all by congruence. cbn [lift and_then].
  destruct nodes as [|nd nodes]; [congruence|].
  destruct out as [|p out]; [rewrite L in Lo; discriminate|].
  cbn [zip_with map].
  destruct (coordinate_range_ok (vx (nd, p).2)
              (map (fun np => vx np.2) (zip nodes out))) as (xl & xh & Ex).
  destruct (coordinate_range_ok (vy (nd, p).2)
              (map (fun np => vy np.2) (zip nodes out))) as (yl & yh & Ey).
  destruct (coordinate_range_ok (vz (nd, p).2)
              (map (fun np => vz np.2) (zip nodes out))) as (zl & zh & Ez).
  rewrite Ex, Ey, Ez. cbn [lift and_then].
  exists (p :: out), (xl, xh), (yl, yh), (zl, zh).
  split; [reflexivity|]. split; [congruence|]. split; [exact Hb|]. reflexivity.
Qed.

Lemma main_report_cases sample nodes edges :
  ((nodes = [] \/ max_of (retained nodes edges).*2 = 0%R) /\
   main_report sample nodes edges = Caught ZeroDivisionError) \/
  (nodes <> [] /\ max_of (retained nodes edges).*2 <> 0%R /\
   ~ Forall (fun e => resolvable nodes e = true) edges /\
   main_report sample nodes edges = CaughtStopIteration) \/
  (nodes <> [] /\ edges = [] /\
   main_report sample nodes edges = Caught ValueError) \/
  (nodes <> [] /\ max_of (retained nodes edges).*2 <> 0%R /\
   Forall (fun e => resolvable nodes e = true) edges /\ edges <> [] /\
   exists out report,
     layout sample nodes edges = Ok out /\
     length out = length nodes /\
     (forall c, c ∈ coords out -> (- 15 <= c <= 15)%R) /\
     main_report sample nodes edges = Finished report /\
     positioned report = zip nodes out /\
     (0 <= min_edge_length report)%R /\
     (min_edge_length report <= average_edge_length report)%R /\
     (average_edge_length report <= max_edge_length report)%R /\
     (max_edge_length report <= sqrt 2700)%R).
Proof.
  destruct (decide (nodes = [])) as [Hn|Hn];
    [left; split; [left; exact Hn|apply main_report_layout_raises; left; exact Hn]|].
  destruct (Req_dec_T (max_of (retained nodes edges).*2) 0) as [Hm|Hm];
    [left; split; [right; exact Hm|apply main_report_layout_raises; right; exact Hm]|].
  right.
  destruct (main_report_after_layout sample nodes edges Hn Hm)
    as (out & xr & yr & zr & El & Lo & Hb & Er).
  destruct (decide (Forall (fun e => resolvable nodes e = true) edges)) as [Hall|Hall].
  - right.
    destruct (connected_distances_ok nodes out edges Lo Hall) as (dists & Ed & Ld & Hd).
    rewrite Ed in Er. cbn [and_then] in Er.
    destruct dists as [|d ds].
    + left. assert (edges = []) by (destruct edges; [reflexivity|simpl in Ld; discriminate]).
      split; [exact Hn|]. split; [assumption|]. exact Er.
    + right. split; [exact Hn|]. split; [exact Hm|]. split; [exact Hall|].
      split; [intros ->; discriminate|].
      destruct (edge_statistics_ok d ds) as (avg & lo & hi & Es & _ & Hlo & Hhi & _ & Hav).
      rewrite Es in Er. cbn [lift and_then fst snd] in Er.
      exists out. eexists. split; [exact El|]. split; [exact Lo|]. split; [exact Hb|].
      split; [exact Er|]. cbn [positioned min_edge_length average_edge_length
                               max_edge_length].
      split; [reflexivity|].
      assert (Hcube : forall x, x ∈ d :: ds -> (0 <= x <= sqrt 2700)%R).
      { intros x Hx. destruct (Hd x Hx) as (p & q & Hp & Hq & ->).
        replace 2700%R with (12 * (15 * 15))%R by lra.
        apply distance_in_cube; intros c Hc; apply Hb;
          [exact (coords_of_row p out c Hp Hc)|exact (coords_of_row q out c Hq Hc)]. }
      pose proof (Hcube lo Hlo). pose proof (Hcube hi Hhi).
      repeat split; lra.
  - left. split; [exact Hn|]. split; [exact Hm|]. split; [exact Hall|].
    rewrite Er, connected_distances_stop by assumption. reflexivity.
Qed.


(** ** [data_processor.py]: the statistics of a node *)

Lemma heaviest_invariant (rest : list data_processor.Link) :
  forall pre best mid,
    (forall e, e ∈ pre ->
       (data_processor.link_weight e < data_processor.link_weight best)%Z) ->
    (forall e, e ∈ mid ->
       (data_processor.link_weight e <= data_processor.link_weight best)%Z) ->
    exists pre' mid',
      pre ++ best :: mid ++ rest = pre' ++ data_processor.heaviest best rest :: mid' /\
      (forall e, e ∈ pre' ->
         (data_processor.link_weight e
          < data_processor.link_weight (data_processor.heaviest best rest))%Z) /\
      (forall e, e ∈ mid' ->
         (data_processor.link_weight e
          <= data_processor.link_weight (data_processor.heaviest best rest))%Z).
Proof.
  induction rest as [|e rest IH]; intros pre best mid Hpre Hmid.
  - exists pre, mid. rewrite app_nil_r. auto.
  - assert (Hstep : data_processor.heaviest best (e :: rest)
                    = data_processor.heaviest
                        (if (data_processor.link_weight best
                             <? data_processor.link_weight e)%Z then e else best) rest)
      by reflexivity.
    rewrite Hstep. clear Hstep.
    destruct (data_processor.link_weight best <? data_processor.link_weight e)%Z eqn:Hlt.
    + apply Z.ltb_lt in Hlt.
      destruct (IH (pre ++ best :: mid) e []) as (pre' & mid' & E & H1 & H2).
      * intros x Hx. apply elem_of_app in Hx as [Hx|Hx]; [specialize (Hpre x Hx); lia|].
        apply elem_of_cons in Hx as [->|Hx]; [lia|specialize (Hmid x Hx); lia].
      * intros x Hx. inversion Hx.
      * exists pre', mid'. split; [|auto].
        rewrite <- E. rewrite <- !app_assoc. reflexivity.
    + apply Z.ltb_ge in Hlt.
      destruct (IH pre best (mid ++ [e])) as (pre' & mid' & E & H1 & H2).
      * exact Hpre.
      * intros x Hx. apply elem_of_app in Hx as [Hx|Hx]; [apply Hmid, Hx|].
        apply elem_of_cons in Hx as [->|Hx]; [lia|inversion Hx].
      * exists pre', mid'. split; [|auto].
        rewrite <- E. rewrite <- !app_assoc. reflexivity.
Qed.

Lemma heaviest_first_maximum first rest :
  exists before after,
    first :: rest = before ++ data_processor.heaviest first rest :: after /\
    (forall e, e ∈ before ->
       (data_processor.link_weight e
        < data_processor.link_weight (data_processor.heaviest first rest))%Z) /\
    (forall e, e ∈ after ->
       (data_processor.link_weight e
        <= data_processor.link_weight (data_processor.heaviest first rest))%Z).
Proof.
  destruct (heaviest_invariant rest [] first []) as (pre & mid & E & H1 & H2).
  - intros e He. inversion He.
  - intros e He. inversion He.
  - exists pre, mid. auto.
Qed.

Lemma partner_name_found (nodes : list data_processor.GraphNode) partner_id :
  partner_id ∈ map data_processor.id nodes ->
  exists before n after,
    nodes = before ++ n :: after /\
    data_processor.id n = partner_id /\
    (forall m, m ∈ before -> data_processor.id m <> partner_id) /\
    data_processor.partner_name nodes partner_id = data_processor.label n.
Proof.
  unfold data_processor.partner_name.
  induction nodes as [|x nodes IH]; intros Hin; [inversion Hin|].
  cbn [find]. destruct (decide (data_processor.id x = partner_id)) as [E|N].
  - rewrite bool_decide_eq_true_2 by exact E.
    exists [], x, nodes. split; [reflexivity|]. split; [exact E|].
    split; [intros m Hm; inversion Hm|reflexivity].
  - rewrite bool_decide_eq_false_2 by exact N.
    cbn [map] in Hin. apply elem_of_cons in Hin as [Hin|Hin]; [congruence|].
    destruct (IH Hin) as (before & n & after & E1 & E2 & E3 & E4).
    exists (x :: before), n, after. split; [rewrite E1; reflexivity|].
    split; [exact E2|]. split; [|exact E4].
    intros m Hm. apply elem_of_cons in Hm as [->|Hm]; [exact N|apply E3, Hm].
Qed.

Lemma partner_name_unknown (nodes : list data_processor.GraphNode) partner_id :
  partner_id ∉ map data_processor.id nodes ->
  data_processor.partner_name nodes partner_id = "Unknown".
Proof.
  unfold data_processor.partner_name. intros Hnot.
  destruct (find _ nodes) as [n|] eqn:E; [|reflexivity].
  exfalso. apply find_some in E as [Hin Hb]. apply bool_decide_eq_true_1 in Hb.
  apply Hnot. rewrite <- Hb. apply list_elem_of_fmap. exists n.
  split; [reflexivity|apply list_elem_of_In; exact Hin].
Qed.

Lemma elem_of_connections edges node_id e :
  e ∈ data_processor.connections edges node_id <->
  e ∈ edges /\
  (data_processor.link_source e = node_id \/ data_processor.link_target e = node_id).
Proof. unfold data_processor.connections. rewrite list_elem_of_filter. tauto. Qed.

(** ** Counting incidences twice *)

Lemma length_filter_cons {A} (P : A -> Prop) `{!forall x, Decision (P x)} x (l : list A) :
  length (filter P (x :: l)) = (if decide (P x) then 1 else 0) + length (filter P l).
Proof.
  destruct (decide (P x)) as [HP|HP].
  - rewrite filter_cons_True by exact HP. reflexivity.
  - rewrite filter_cons_False by exact HP. reflexivity.
Qed.

Lemma sum_list_with_plus {A} (f g : A -> nat) (l : list A) :
  sum_list_with (fun x => f x + g x) l = sum_list_with f l + sum_list_with g l.
Proof. induction l as [|x l IH]; simpl; [reflexivity|]. rewrite IH. lia. Qed.

Lemma sum_list_with_indicator {A} (P : A -> Prop) `{!forall x, Decision (P x)}
    (l : list A) :
  sum_list_with (fun x => if decide (P x) then 1 else 0) l = length (filter P l).
Proof.
  induction l as [|x l IH]; [reflexivity|].
  rewrite length_filter_cons. simpl. rewrite IH. reflexivity.
Qed.

Lemma double_count {A B} (Q : A -> B -> Prop) `{!forall a b, Decision (Q a b)}
    (vs : list A) (es : list B) :
  sum_list_with (fun v => length (filter (Q v) es)) vs
  = sum_list_with (fun e => length (filter (fun v => Q v e) vs)) es.
Proof.
  induction vs as [|v vs IH].
  - cbn [sum_list_with]. induction es as [|e es IHe]; [reflexivity|].
    cbn [sum_list_with]. rewrite <- IHe. reflexivity.
  - cbn [sum_list_with]. rewrite IH.
    rewrite <- (sum_list_with_indicator (Q v) es).
    rewrite <- sum_list_with_plus.
    clear IH. induction es as [|e es IHe]; [reflexivity|].
    cbn [sum_list_with]. rewrite IHe.
    rewrite (length_filter_cons (fun v0 => Q v0 e) v vs). reflexivity.
Qed.

Lemma filter_none {A} (P : A -> Prop) `{!forall x, Decision (P x)} (l : list A) :
  (forall x, x ∈ l -> ~ P x) -> filter P l = [].
Proof.
  induction l as [|x l IH]; intros Hn; [reflexivity|].
  rewrite filter_cons_False by (apply Hn; left). apply IH.
  intros y Hy. apply Hn. right. exact Hy.
Qed.

Lemma count_id_distinct (vs : list data_processor.GraphNode) s :
  NoDup (map data_processor.id vs) -> s ∈ map data_processor.id vs ->
  length (filter (fun v => data_processor.id v = s) vs) = 1.
Proof.
  induction vs as [|v vs IH]; intros Hnd Hin; [inversion Hin|].
  cbn [map] in Hnd, Hin. apply NoDup_cons in Hnd as [Hv Hnd].
  rewrite length_filter_cons.
  destruct (decide (data_processor.id v = s)) as [E|N].
  - assert (Hz : filter (fun v0 => data_processor.id v0 = s) vs = []).
    { apply filter_none. intros x Hx Ex. apply Hv.
      rewrite E, <- Ex. apply list_elem_of_fmap. exists x. auto. }
    rewrite Hz. reflexivity.
  - apply elem_of_cons in Hin as [Hin|Hin]; [congruence|].
    rewrite IH by assumption. reflexivity.
Qed.

Lemma count_two_ids (vs : list data_processor.GraphNode) s t :
  NoDup (map data_processor.id vs) ->
  s ∈ map data_processor.id vs -> t ∈ map data_processor.id vs ->
  length (filter (fun v => s = data_processor.id v \/ t = data_processor.id v) vs)
  = if decide (s = t) then 1 else 2.
Proof.
  intros Hnd Hs Ht.
  pose proof (count_id_distinct vs s Hnd Hs) as Cs.
  pose proof (count_id_distinct vs t Hnd Ht) as Ct.
  destruct (decide (s = t)) as [->|Hst].
  - rewrite <- Ct. f_equal. apply list_filter_iff.
    intros v. split; [intros [E|E]; congruence|auto].
  - assert (G : length (filter (fun v => s = data_processor.id v
                                           \/ t = data_processor.id v) vs)
                = length (filter (fun v => data_processor.id v = s) vs)
                  + length (filter (fun v => data_processor.id v = t) vs)).
    { clear Hnd Hs Ht Cs Ct. induction vs as [|v vs IH]; [reflexivity|].
      rewrite !length_filter_cons, IH.
      destruct (decide (s = data_processor.id v \/ t = data_processor.id v))
        as [[E|E]|N];
        destruct (decide (data_processor.id v = s));
        destruct (decide (data_processor.id v = t)); try congruence; try lia;
        exfalso; apply N; auto. }
    rewrite G, Cs, Ct. reflexivity.
Qed.

Lemma node_stats_total nodes edges node :
  data_processor.total_connections (data_processor.node_stats nodes edges node)
  = length (data_processor.connections edges (data_processor.id node)) /\
  data_processor.stat_node (data_processor.node_stats nodes edges node) = node.
Proof.
  unfold data_processor.node_stats.
  destruct (data_processor.connections edges (data_processor.id node));
    split; reflexivity.
Qed.

Lemma sum_list_with_ext {A} (f g : A -> nat) (l : list A) :
  (forall x, x ∈ l -> f x = g x) -> sum_list_with f l = sum_list_with g l.
Proof.
  induction l as [|x l IH]; intros H; [reflexivity|].
  cbn [sum_list_with]. rewrite (H x) by left. rewrite IH; [reflexivity|].
  intros y Hy. apply H. right. exact Hy.
Qed.

Lemma sum_one_or_two (edges : list data_processor.Link) :
  sum_list_with
    (fun e => if decide (data_processor.link_source e = data_processor.link_target e)
              then 1 else 2) edges
  + length (filter (fun e => data_processor.link_source e = data_processor.link_target e)
                   edges)
  = 2 * length edges.
Proof.
  induction edges as [|e edges IH]; [reflexivity|].
  cbn [sum_list_with]. rewrite length_filter_cons. cbn [length].
  destruct (decide (data_processor.link_source e = data_processor.link_target e)); lia.
Qed.

Lemma connections_handshake nodes edges :
  NoDup (map data_processor.id nodes) ->
  (forall e, e ∈ edges ->
     data_processor.link_source e ∈ map data_processor.id nodes /\
     data_processor.link_target e ∈ map data_processor.id nodes) ->
  sum_list_with
    (fun v => length (data_processor.connections edges (data_processor.id v))) nodes
  + length (filter (fun e => data_processor.link_source e = data_processor.link_target e)
                   edges)
  = 2 * length edges.
Proof.
  intros Hnd Hends. rewrite <- sum_one_or_two. f_equal.
  unfold data_processor.connections.
  rewrite (double_count
             (fun v e => data_processor.link_source e = data_processor.id v
                         \/ data_processor.link_target e = data_processor.id v)
             nodes edges).
  apply sum_list_with_ext. intros e He. destruct (Hends e He) as [Hs Ht].
  apply count_two_ids; assumption.
Qed.

Lemma sum_list_map {A} (f : A -> nat) (l : list A) :
  sum_list (map f l) = sum_list_with f l.
Proof. induction l as [|x l IH]; [reflexivity|]. cbn. rewrite <- IH. reflexivity. Qed.

(** ** From [data_processor.py] to [calculate_positions.py] *)

Lemma node_stats_character nodes edges node s :
  data_processor.strongest_connection (data_processor.node_stats nodes edges node)
  = Some s ->
  exists e, e ∈ edges /\
    (data_processor.link_source e = data_processor.id node
     \/ data_processor.link_target e = data_processor.id node) /\
    data_processor.strongest_weight s = data_processor.link_weight e /\
    data_processor.character s
    = data_processor.partner_name nodes
        (if decide (data_processor.link_source e = data_processor.id node)
         then data_processor.link_target e
         else data_processor.link_source e).
Proof.
  unfold data_processor.node_stats.
  destruct (data_processor.connections edges (data_processor.id node))
    as [|first rest] eqn:Ec; cbn [data_processor.strongest_connection]; [discriminate|].
  intros Hs. inversion Hs; subst. clear Hs.
  destruct (heaviest_first_maximum first rest) as (before & after & E & _).
  assert (Hin : data_processor.heaviest first rest
                ∈ data_processor.connections edges (data_processor.id node)).
  { rewrite Ec, E. apply elem_of_app. right. left. }
  apply elem_of_connections in Hin as [Hin Hinc].
  exists (data_processor.heaviest first rest). auto.
Qed.

Lemma create_nodes_json_ids persons :
  map data_processor.id (data_processor.create_nodes_json persons)
  = map data_processor.col_id persons.
Proof. unfold data_processor.create_nodes_json. rewrite map_map. reflexivity. Qed.

Lemma main_node_ids ontology network :
  map node_id (loaded_nodes (data_processor.main ontology network))
  = map data_processor.col_id (data_processor.filter_persons ontology).
Proof.
  unfold loaded_nodes, data_processor.main. cbn [data_processor.nodes].
  unfold data_processor.calculate_node_stats. rewrite !map_map.
  unfold data_processor.create_nodes_json. rewrite map_map.
  apply map_ext. intros row. cbn [node_id].
  rewrite (proj2 (node_stats_total _ _ _)). reflexivity.
Qed.

Lemma main_links_closed ontology network l :
  l ∈ data_processor.links (data_processor.main ontology network) ->
  data_processor.link_source l
    ∈ map data_processor.col_id (data_processor.filter_persons ontology) /\
  data_processor.link_target l
    ∈ map data_processor.col_id (data_processor.filter_persons ontology).
Proof.
  unfold data_processor.main. cbn [data_processor.links].
  unfold data_processor.create_edges_json, data_processor.filter_edges.
  intros Hl. apply list_elem_of_fmap in Hl as (row & -> & Hrow).
  apply list_elem_of_filter in Hrow as [H _]. exact H.
Qed.

Lemma main_edges_resolvable ontology network :
  Forall (fun e => resolvable (loaded_nodes (data_processor.main ontology network)) e
                   = true)
         (loaded_edges (data_processor.main ontology network)).
Proof.
  apply Forall_forall. intros e He. unfold loaded_edges in He.
  apply list_elem_of_fmap in He as (l & -> & Hl).
  apply main_links_closed in Hl as [Hs Ht].
  apply resolvable_true. unfold known. rewrite main_node_ids. simpl. auto.
Qed.

Lemma Rmax_IZR a b : Rmax (IZR a) (IZR b) = IZR (Z.max a b).
Proof.
  unfold Rmax. destruct (Rle_dec (IZR a) (IZR b)) as [H|H].
  - apply le_IZR in H. rewrite Z.max_r by exact H. reflexivity.
  - rewrite Z.max_l; [reflexivity|].
    destruct (Z.le_ge_cases b a) as [Hba|Hab]; [exact Hba|].
    exfalso. apply H. apply IZR_le. exact Hab.
Qed.

Lemma fold_max_IZR (ws : list Z) : forall w,
  fold_left Rmax (map IZR ws) (IZR w) = IZR (fold_left Z.max ws w).
Proof.
  induction ws as [|x ws IH]; intros w; [reflexivity|].
  cbn [map fold_left]. rewrite Rmax_IZR. apply IH.
Qed.

Lemma max_of_loaded_edges (c : data_processor.Combined) :
  data_processor.links c <> [] ->
  max_of (map weight (loaded_edges c))
  = IZR (data_processor.max_weight (data_processor.links c)).
Proof.
  unfold loaded_edges. destruct (data_processor.links c) as [|l ls]; [congruence|].
  intros _. cbn [map max_of data_processor.max_weight weight].
  rewrite map_map. cbn [weight].
  rewrite <- (map_map data_processor.link_weight IZR). apply fold_max_IZR.
Qed.

(** ** A cloud collapsed to one point *)

Lemma repulsive_force_coincident k (positions : list Vec3) i j :
  positions !!! i = positions !!! j -> repulsive_force k positions i j = vzero.
Proof.
  intros E. unfold repulsive_force. rewrite E, vsub_self, norm_zero.
  destruct (Rlt_dec 0 0); [lra|reflexivity].
Qed.

Lemma attractive_force_coincident k (positions : list Vec3) i j w :
  positions !!! i = positions !!! j -> attractive_force k positions i j w = vzero.
Proof.
  intros E. unfold attractive_force. rewrite E, vsub_self, norm_zero.
  destruct (Rlt_dec 0 0); [lra|reflexivity].
Qed.

Lemma net_force_collapsed k (positions : list Vec3) es v :
  (forall i j, i < length positions -> j < length positions ->
               positions !!! i = positions !!! j) ->
  Forall (fun e => e.1.1 < length positions /\ e.1.2 < length positions) es ->
  net_force k positions es v = vzero.
Proof.
  intros Hall Hes. unfold net_force.
  rewrite !vsum_zero; [apply vadd_zero_l| |].
  - intros [[i j] w] He. simpl.
    rewrite Forall_forall in Hes. specialize (Hes _ He). simpl in Hes.
    rewrite attractive_force_coincident by (apply Hall; tauto). apply contrib_zero.
  - intros [i j] Hp. simpl. apply elem_of_pairs in Hp.
    rewrite repulsive_force_coincident by (apply Hall; lia). apply contrib_zero.
Qed.

Lemma move_zero temperature : move temperature vzero = vzero.
Proof. unfold move. rewrite norm_zero. destruct (Rlt_dec 0 0); [lra|reflexivity]. Qed.

Lemma step_collapsed k n ep ew positions temperature :
  k <> 0%R -> length positions = n -> in_range n ep ->
  (forall i j, i < n -> j < n -> positions !!! i = positions !!! j) ->
  step k n ep ew (positions, temperature) = Ok (positions, (temperature * 0.98)%R).
Proof.
  intros Hk Hn Hr Hall. rewrite step_ok by assumption. f_equal. f_equal.
  symmetry. apply tabulate_eq; [exact Hn|].
  intros v _. rewrite net_force_collapsed;
    [|rewrite Hn; exact Hall|rewrite Hn; apply zip_in_range; exact Hr].
  rewrite move_zero, vadd_zero_r. reflexivity.
Qed.

Lemma iterate_collapsed k n ep ew positions t : forall temperature,
  k <> 0%R -> length positions = n -> in_range n ep ->
  (forall i j, i < n -> j < n -> positions !!! i = positions !!! j) ->
  iterate k n ep ew t (positions, temperature)
  = Ok (positions, (temperature * 0.98 ^ t)%R).
Proof.
  induction t as [|t IH]; intros T Hk Hn Hr Hall.
  - simpl. rewrite Rmult_1_r. reflexivity.
  - cbn [iterate]. rewrite step_collapsed by assumption. cbn [bind].
    rewrite IH by assumption. f_equal. f_equal. simpl. ring.
Qed.

Lemma initial_positions_constant sample n i j :
  (forall a b, sample a = sample b) -> i < n -> j < n ->
  initial_positions sample n !!! i = initial_positions sample n !!! j.
Proof.
  intros Hs Hi Hj. unfold initial_positions.
  rewrite !lookup_total_tabulate by assumption. rewrite (Hs i j). reflexivity.
Qed.

Lemma simulate_collapsed sample nodes edges iterations :
  (forall a b, sample a = sample b) ->
  nodes <> [] -> max_of (retained nodes edges).*2 <> 0%R ->
  simulate sample nodes edges iterations
  = Ok (initial_positions sample (length nodes),
        (initial_temperature * 0.98 ^ Z.to_nat iterations)%R).
Proof.
  intros Hs Hn Hm. rewrite simulate_retained. cbv zeta.
  rewrite normalize_weights_ok by exact Hm. cbn [bind].
  assert (Hlen : length nodes <> 0) by (destruct nodes; [congruence|simpl; lia]).
  rewrite py_div_ok by (apply not_0_INR; exact Hlen). cbn [bind].
  apply iterate_collapsed.
  - pose proof (k_positive _ Hlen). lra.
  - apply initial_positions_length.
  - apply retained_in_range.
  - intros i j Hi Hj. apply initial_positions_constant; assumption.
Qed.

(** ** The layout as a whole *)

Lemma layout_bounded sample nodes edges :
  nodes <> [] -> max_of (retained nodes edges).*2 <> 0%R ->
  exists positions out,
    force_directed_3d sample nodes edges 500 = Ok positions /\
    layout sample nodes edges = Ok out /\
    normalize_positions positions 15 = Ok out /\
    length out = length nodes /\
    forall c, c ∈ coords out -> (- 15 <= c <= 15)%R.
Proof.
  intros Hn Hm. unfold layout, force_directed_3d.
  destruct (simulate_ok sample nodes edges 500 Hn Hm) as (ps & E & L).
  rewrite E. cbn [bind fst].
  assert (Hps : ps <> []) by (intros ->; destruct nodes; [congruence|discriminate]).
  destruct (normalize_positions_bounded ps 15 Hps) as (out & En & Lo & Hb); [lra|].
  exists ps, out. rewrite En. repeat split; try congruence; apply Hb; assumption.
Qed.

(** ** The largest link weight *)


(** ** Two nodes and no edge *)

Lemma norm_neg f : norm (vsub vzero f) = norm f.
Proof. unfold norm, vsub, vzero; simpl. f_equal. ring. Qed.

Lemma move_of_scaled_unit temperature delta s :
  (0 < norm delta)%R -> (0 < s)%R ->
  move temperature (vscale (vscale delta (/ norm delta)) s)
  = vscale (vscale delta (/ norm delta)) (Rmin s temperature).
Proof.
  intros Hd Hs. unfold move.
  rewrite norm_scaled_unit by lra.
  destruct (Rlt_dec 0 s); [|contradiction].
  apply vec_ext; simpl; field; lra.
Qed.

Lemma move_neg temperature f :
  move temperature (vsub vzero f) = vsub vzero (move temperature f).
Proof.
  unfold move. rewrite norm_neg.
  destruct (Rlt_dec 0 (norm f)); vec.
Qed.

Lemma net_force_two_nodes_no_edge k p q :
  net_force k [p; q] [] 0 = repulsive_force k [p; q] 0 1 /\
  net_force k [p; q] [] 1 = vsub vzero (repulsive_force k [p; q] 0 1).
Proof.
  unfold net_force. simpl. unfold contrib. simpl. split; vec.
Qed.

Lemma step_two_nodes k p q temperature :
  k <> 0%R -> (0 < norm (vsub p q))%R ->
  let d := norm (vsub p q) in
  let m := Rmin (k * k / d) temperature in
  let u := vscale (vsub p q) (/ d) in
  step k 2 [] [] ([p; q], temperature)
  = Ok ([vadd p (vscale u m); vadd q (vsub vzero (vscale u m))],
        (temperature * 0.98)%R).
Proof.
  intros Hk Hd d m u. rewrite step_ok; [|exact Hk|reflexivity|constructor].
  cbn [seq map zip_with].
  destruct (net_force_two_nodes_no_edge k p q) as [-> ->].
  assert (Hf : (0 < k * k / d)%R).
  { apply Rdiv_lt_0_compat; [|exact Hd].
    destruct (Rtotal_order k 0) as [H|[H|H]]; [nra|contradiction|nra]. }
  assert (Er : repulsive_force k [p; q] 0 1 = vscale u (k * k / d)).
  { unfold repulsive_force. change ([p; q] !!! 0) with p. change ([p; q] !!! 1) with q.
    fold d. destruct (Rlt_dec 0 d); [reflexivity|contradiction]. }
  rewrite Er, move_neg. unfold u, d.
  rewrite move_of_scaled_unit by assumption. reflexivity.
Qed.

(** * Further properties *)

(** X1.  Newton's third law: whenever the two force loops return, the
    displacement field adds up to the zero vector; and they do return, with
    one row per node, when [k] is not zero and the edges join existing
    rows. *)
Theorem displacements_sum_to_zero
    (k : R) (n : nat) (edge_pairs : list (nat * nat)) (edge_weights : list R)
    (positions : list Vec3) :
  k <> 0%R -> length positions = n -> in_range n edge_pairs ->
  (exists displacements,
     compute_displacements k n edge_pairs edge_weights positions = Ok displacements /\
     length displacements = n /\ vsum displacements = vzero) /\
  (forall k' positions' displacements,
     compute_displacements k' n edge_pairs edge_weights positions' = Ok displacements ->
     vsum displacements = vzero).
Proof.
  intros Hk Hn Hr. split.
  - eexists. split; [apply compute_displacements_ok; assumption|].
    split; [rewrite length_map, length_seq; reflexivity|].
    apply (compute_displacements_sum_zero k n edge_pairs edge_weights positions).
    apply compute_displacements_ok; assumption.
  - intros k' ps' ds. apply compute_displacements_sum_zero.
Qed.

Lemma displacements_sum_to_zero_witness :
  exists displacements,
    compute_displacements 1 2 [(0, 1)] [1%R] [vzero; mkVec 3 4 0] = Ok displacements /\
    length displacements = 2 /\ vsum displacements = vzero.
Proof.
  apply (displacements_sum_to_zero 1 2 [(0, 1)] [1%R] [vzero; mkVec 3 4 0]).
  - lra.
  - reflexivity.
  - repeat constructor; simpl; lia.
Defined.

(** X2.  Edges have no direction: writing an input edge from its other end
    (source and target exchanged, same weight) changes nothing in the run,
    neither the positions nor the temperature, nor whether it raises. *)
Theorem edge_direction_is_irrelevant
    (sample : nat -> Vec3) (nodes : list Node) (e : Edge) (e1 e2 : list Edge)
    (iterations : Z) :
  simulate sample nodes (e1 ++ reverse_edge e :: e2) iterations
  = simulate sample nodes (e1 ++ e :: e2) iterations /\
  force_directed_3d sample nodes (e1 ++ reverse_edge e :: e2) iterations
  = force_directed_3d sample nodes (e1 ++ e :: e2) iterations.
Proof.
  pose proof (simulate_reverse_edge sample nodes e e1 e2 iterations) as H.
  split; [exact H|]. unfold force_directed_3d. rewrite H. reflexivity.
Qed.

(** X3.  A node never travels far: with at least one node and a non-zero
    largest retained weight, the run returns, and after [t] iterations every
    node is within [500 * (1 - 0.98 ^ t)], hence within [500], of its
    initial position [5 * sample i]. *)
Theorem nodes_stay_within_500
    (sample : nat -> Vec3) (nodes : list Node) (edges : list Edge) (iterations : Z) :
  nodes <> [] -> max_of (resolve_edges (id_to_idx nodes) edges).2 <> 0%R ->
  exists positions,
    force_directed_3d sample nodes edges iterations = Ok positions /\
    length positions = length nodes /\
    forall i, i < length nodes ->
      (norm (vsub (positions !!! i) (vscale (sample i) 5))
       <= 500 * (1 - 0.98 ^ Z.to_nat iterations))%R /\
      (norm (vsub (positions !!! i) (vscale (sample i) 5)) < 500)%R.
Proof.
  intros Hn Hm. rewrite resolve_edges_retained in Hm. cbn [snd] in Hm.
  unfold force_directed_3d. rewrite simulate_retained. cbv zeta.
  rewrite normalize_weights_ok by exact Hm. cbn [bind].
  assert (Hlen : length nodes <> 0) by (destruct nodes; [congruence|simpl; lia]).
  rewrite py_div_ok by (apply not_0_INR; exact Hlen). cbn [bind].
  destruct (iterate_drift (sqrt (area / INR (length nodes))) (length nodes)
              (retained nodes edges).*1
              (map (fun w => w / max_of (retained nodes edges).*2)%R
                   (retained nodes edges).*2)
              (initial_positions sample (length nodes)) initial_temperature
              (Z.to_nat iterations)) as (ps & E & L & D).
  - pose proof (k_positive _ Hlen). lra.
  - apply initial_positions_length.
  - apply retained_in_range.
  - unfold initial_temperature. lra.
  - exists ps. rewrite E. cbn [bind fst]. split; [reflexivity|]. split; [exact L|].
    intros i Hi. specialize (D i Hi).
    unfold initial_positions in D. rewrite lookup_total_tabulate in D by exact Hi.
    unfold initial_temperature in D.
    pose proof (pow_098_pos (Z.to_nat iterations)). split; lra.
Qed.

Lemma nodes_stay_within_500_witness :
  exists positions,
    force_directed_3d (fun _ => mkVec 1 2 3) [mkNode "a"; mkNode "b"]
                      [mkEdge "a" "b" 5] 500 = Ok positions /\
    length positions = 2.
Proof.
  destruct (nodes_stay_within_500 (fun _ => mkVec 1 2 3) [mkNode "a"; mkNode "b"]
              [mkEdge "a" "b" 5] 500) as (ps & E & L & _).
  - discriminate.
  - change (max_of [5%R] <> 0%R). simpl. lra.
  - exists ps. split; [exact E|exact L].
Defined.



(** X5.  The index of a node.  Whatever the dictionary returns for an id
    is the index of the last node carrying that id; when the ids are
    pairwise distinct, looking up the id of the node at index [i] gives
    [i]. *)
Theorem id_to_idx_is_last_index (nodes : list Node) :
  (forall s i, id_to_idx nodes !! s = Some i ->
     i < length nodes /\
     node_id <$> nodes !! i = Some s /\
     forall j nd, i < j -> nodes !! j = Some nd -> node_id nd <> s) /\
  (NoDup (map node_id nodes) ->
   forall i nd, nodes !! i = Some nd -> id_to_idx nodes !! node_id nd = Some i).
Proof.
  split.
  - intros s i H. destruct (id_to_idx_Some _ _ _ H) as (Hi & nd & Hl & Hid).
    split; [exact Hi|]. split; [rewrite Hl; simpl; rewrite Hid; reflexivity|].
    apply id_to_idx_last. exact H.
  - intros Hnd i nd Hi. apply id_to_idx_distinct; assumption.
Qed.

Lemma id_to_idx_is_last_index_witness :
  id_to_idx [mkNode "a"; mkNode "b"] !! "b" = Some 1.
Proof.
  destruct (id_to_idx_is_last_index [mkNode "a"; mkNode "b"]) as [_ H].
  apply (H distinct_ids_a_b 1 (mkNode "b")).
  reflexivity.
Defined.

(** X6.  Only relative positions matter: adding one vector [c] to every
    normal draw moves every returned position by [5 * c] and changes nothing
    else; a call that raises still raises. *)
Theorem layout_moves_with_the_cloud
    (sample : nat -> Vec3) (c : Vec3) (nodes : list Node) (edges : list Edge)
    (iterations : Z) :
  force_directed_3d (fun i => vadd (sample i) c) nodes edges iterations
  = on_result (translate (vscale c 5))
              (force_directed_3d sample nodes edges iterations).
Proof.
  unfold force_directed_3d, on_result. rewrite !simulate_retained. cbv zeta.
  destruct (normalize_weights _ _) as [ew| |]; cbn [bind]; [|reflexivity..].
  destruct nodes as [|nd nodes].
  { simpl. unfold py_div. destruct (Req_dec_T 0 0); [reflexivity|congruence]. }
  rewrite py_div_ok by (apply not_0_INR; discriminate). cbn [bind].
  rewrite initial_positions_translate.
  destruct (iterate_translate (sqrt (area / INR (length (nd :: nodes))))
              (length (nd :: nodes)) (retained (nd :: nodes) edges).*1 ew
              (vscale c 5) (Z.to_nat iterations)
              (initial_positions sample (length (nd :: nodes))) initial_temperature)
    as (ps & E1 & E2 & _).
  - pose proof (k_positive (length (nd :: nodes))) as Hk.
    assert (length (nd :: nodes) <> 0) by discriminate. specialize (Hk H). lra.
  - apply initial_positions_length.
  - apply retained_in_range.
  - rewrite E1, E2. reflexivity.
Qed.



(** X8.  The result of normalization does not depend on the scale of its
    input: an array with every coordinate multiplied by one factor [c > 0]
    normalizes to the same result (and raises when the array is empty, as
    before). *)
Theorem normalize_positions_ignores_scale
    (positions : list Vec3) (target_range c : R) :
  (0 < c)%R ->
  normalize_positions (map (fun v => vscale v c) positions) target_range
  = normalize_positions positions target_range.
Proof.
  intros Hc. destruct positions as [|p ps]; [reflexivity|].
  destruct (np_max_coords_ok p ps) as [m Hm].
  remember (p :: ps) as l eqn:El. clear El.
  destruct (max_coord_spec _ _ Hm) as (Hnonneg & _ & _).
  pose proof (max_coord_scaled _ _ c Hm) as Hm'.
  rewrite Rabs_pos_eq in Hm' by lra.
  destruct (Rlt_dec 0 m) as [Hpos|Hz].
  - rewrite (normalize_positions_scaled _ _ _ Hm Hpos).
    rewrite (normalize_positions_scaled _ _ _ Hm') by (apply Rmult_lt_0_compat; lra).
    rewrite map_vscale_vscale.
    replace (c * (target_range / (m * c)))%R with (target_range / m)%R by (field; lra).
    reflexivity.
  - assert (m = 0%R) by lra. subst m. rewrite Rmult_0_l in Hm'.
    rewrite (normalize_positions_unchanged _ _ Hm).
    rewrite (normalize_positions_unchanged _ _ Hm').
    rewrite map_vscale_zeros; [reflexivity|].
    apply all_zero_when_max_zero. exact Hm.
Qed.

Lemma normalize_positions_ignores_scale_witness :
  normalize_positions (map (fun v => vscale v 2) [mkVec 1 (-3) 2]) 15
  = normalize_positions [mkVec 1 (-3) 2] 15.
Proof. apply (normalize_positions_ignores_scale [mkVec 1 (-3) 2] 15 2). lra. Defined.

(** X9.  [normalize_positions] fails on the empty array only, with the
    [ValueError] of [np.max]; on any other array it returns the array
    multiplied by one factor, with as many rows. *)
Theorem normalize_positions_fails_on_empty_only
    (positions : list Vec3) (target_range : R) :
  (positions = [] -> normalize_positions positions target_range = Raise ValueError) /\
  (positions <> [] ->
   exists s out,
     normalize_positions positions target_range = Ok out /\
     out = map (fun v => vscale v s) positions /\
     length out = length positions).
Proof.
  split.
  - intros ->. apply normalize_positions_empty.
  - intros Hne. destruct (normalize_positions_total positions target_range Hne) as [s E].
    exists s. eexists. split; [exact E|]. split; [reflexivity|]. apply length_map.
Qed.





(** X12.  [calculate_node_stats] keeps the nodes and their order, and for
    each node: [total_connections] is the number of edges with the node's
    id as source or target (a self-loop counts once);
    [strongest_connection] is [None] exactly when there is no such edge;
    otherwise its weight is the weight of the first heaviest of those edges
    (earlier ones are strictly lighter, later ones not heavier) and its
    character is the name found for the other end of that edge, the node
    itself for a self-loop. *)
Theorem calculate_node_stats_spec
    (nodes : list data_processor.GraphNode) (edges : list data_processor.Link) :
  map data_processor.stat_node (data_processor.calculate_node_stats nodes edges) = nodes /\
  length (data_processor.calculate_node_stats nodes edges) = length nodes /\
  forall i node, nodes !! i = Some node ->
    exists st,
      data_processor.calculate_node_stats nodes edges !! i = Some st /\
      data_processor.stat_node st = node /\
      data_processor.total_connections st
      = length (filter (fun e => data_processor.link_source e = data_processor.id node
                                 \/ data_processor.link_target e = data_processor.id node)
                       edges) /\
      (data_processor.strongest_connection st = None <->
       forall e, e ∈ edges ->
         data_processor.link_source e <> data_processor.id node /\
         data_processor.link_target e <> data_processor.id node) /\
      (forall s, data_processor.strongest_connection st = Some s ->
         exists before e after,
           data_processor.connections edges (data_processor.id node)
           = before ++ e :: after /\
           (forall x, x ∈ before ->
              (data_processor.link_weight x < data_processor.link_weight e)%Z) /\
           (forall x, x ∈ after ->
              (data_processor.link_weight x <= data_processor.link_weight e)%Z) /\
           data_processor.strongest_weight s = data_processor.link_weight e /\
           data_processor.character s
           = data_processor.partner_name nodes
               (if decide (data_processor.link_source e = data_processor.id node)
                then data_processor.link_target e
                else data_processor.link_source e)).
Proof.
  unfold data_processor.calculate_node_stats.
  split.
  { rewrite map_map. rewrite <- (map_id nodes) at 2. apply map_ext.
    intros node. apply node_stats_total. }
  split; [apply length_map|].
  intros i node Hi. exists (data_processor.node_stats nodes edges node).
  split.
  { change (map ?f nodes) with (f <$> nodes). rewrite list_lookup_fmap, Hi. reflexivity. }
  split; [apply node_stats_total|].
  split; [apply node_stats_total|].
  unfold data_processor.node_stats.
  destruct (data_processor.connections edges (data_processor.id node))
    as [|first rest] eqn:Ec; cbn [data_processor.strongest_connection].
  - split.
    + split; [|reflexivity]. intros _ e He.
      destruct (decide (data_processor.link_source e = data_processor.id node
                        \/ data_processor.link_target e = data_processor.id node))
        as [Hinc|Hinc]; [|tauto].
      exfalso. assert (Hin : e ∈ data_processor.connections edges (data_processor.id node))
        by (apply elem_of_connections; tauto).
      rewrite Ec in Hin. inversion Hin.
    + intros s Hs. discriminate.
  - split.
    + split; [discriminate|]. intros Hnone. exfalso.
      assert (Hin : first ∈ data_processor.connections edges (data_processor.id node))
        by (rewrite Ec; left).
      apply elem_of_connections in Hin as [Hin Hinc].
      destruct (Hnone first Hin). tauto.
    + intros s Hs. inversion Hs; subst. clear Hs.
      destruct (heaviest_first_maximum first rest) as (before & after & E & H1 & H2).
      exists before, (data_processor.heaviest first rest), after.
      split; [exact E|]. split; [exact H1|]. split; [exact H2|].
      split; reflexivity.
Qed.

(** X13.  Counting connections twice.  When the node ids are pairwise
    distinct and every edge joins two of them, the [total_connections] of
    all nodes add up to twice the number of edges minus the number of
    self-loops. *)
Theorem total_connections_add_up
    (nodes : list data_processor.GraphNode) (edges : list data_processor.Link) :
  NoDup (map data_processor.id nodes) ->
  (forall e, e ∈ edges ->
     data_processor.link_source e ∈ map data_processor.id nodes /\
     data_processor.link_target e ∈ map data_processor.id nodes) ->
  sum_list (map data_processor.total_connections
                (data_processor.calculate_node_stats nodes edges))
  + length (filter (fun e => data_processor.link_source e = data_processor.link_target e)
                   edges)
  = 2 * length edges.
Proof.
  intros Hnd Hends. rewrite <- (connections_handshake nodes edges Hnd Hends). f_equal.
  unfold data_processor.calculate_node_stats. rewrite map_map, sum_list_map.
  apply sum_list_with_ext. intros v _. apply node_stats_total.
Qed.

Lemma total_connections_add_up_witness :
  sum_list (map data_processor.total_connections
                (data_processor.calculate_node_stats
                   [data_processor.mkGraphNode "a" "A" "men" "male" 5 10 "#7A84DD"]
                   [data_processor.mkLink "a" "a" 3 "3 co-appearances"]))
  + 1 = 2.
Proof.
  apply (total_connections_add_up
           [data_processor.mkGraphNode "a" "A" "men" "male" 5 10 "#7A84DD"]
           [data_processor.mkLink "a" "a" 3 "3 co-appearances"]).
  - simpl. apply NoDup_singleton.
  - intros e He. apply list_elem_of_singleton in He. subst e. simpl.
    split; apply list_elem_of_singleton; reflexivity.
Defined.

(** X14.  The graph [data_processor.py] writes is closed: its nodes are
    the rows of type ['per'], in order; both ends of every link are ids of
    its nodes, so the layout of [calculate_positions.py] retains every
    link; and the name in a [strongest_connection] is the label of one of
    its nodes, the one found for the other end of the edge, never the
    default for a missing node. *)
Theorem processed_graph_is_closed
    (ontology : list data_processor.OntologyRow)
    (network : list data_processor.NetworkRow) :
  let c := data_processor.main ontology network in
  let ids := map (fun n => data_processor.id (data_processor.stat_node n))
                 (data_processor.nodes c) in
  ids = map data_processor.col_id (data_processor.filter_persons ontology) /\
  data_processor.node_count c = length (data_processor.filter_persons ontology) /\
  data_processor.edge_count c = length (data_processor.links c) /\
  (forall l, l ∈ data_processor.links c ->
     data_processor.link_source l ∈ ids /\ data_processor.link_target l ∈ ids) /\
  Forall (fun e => resolvable (loaded_nodes c) e = true) (loaded_edges c) /\
  length (retained (loaded_nodes c) (loaded_edges c)) = length (data_processor.links c) /\
  (forall n s, n ∈ data_processor.nodes c ->
     data_processor.strongest_connection n = Some s ->
     exists m e,
       m ∈ data_processor.nodes c /\ e ∈ data_processor.links c /\
       data_processor.character s = data_processor.label (data_processor.stat_node m) /\
       data_processor.strongest_weight s = data_processor.link_weight e /\
       ((data_processor.link_source e = data_processor.id (data_processor.stat_node n) /\
         data_processor.link_target e = data_processor.id (data_processor.stat_node m)) \/
        (data_processor.link_target e = data_processor.id (data_processor.stat_node n) /\
         data_processor.link_source e = data_processor.id (data_processor.stat_node m)))).
Proof.
  intros c ids.
  assert (Eids : ids = map data_processor.col_id (data_processor.filter_persons ontology)).
  { unfold ids. rewrite <- (main_node_ids ontology network).
    unfold loaded_nodes. rewrite map_map. reflexivity. }
  split; [exact Eids|].
  split.
  { unfold c, data_processor.main. cbn [data_processor.node_count].
    unfold data_processor.calculate_node_stats, data_processor.create_nodes_json.
    rewrite !length_map. reflexivity. }
  split; [reflexivity|].
  split; [intros l Hl; rewrite Eids; apply (main_links_closed ontology network); exact Hl|].
  split; [apply main_edges_resolvable|].
  split.
  { pose proof (proj2 (retained_all _ _ (main_edges_resolvable ontology network))) as Hl.
    fold c in Hl. rewrite Hl. unfold loaded_edges. apply length_map. }
  intros n s Hn Hs.
  set (nodes0 := data_processor.create_nodes_json (data_processor.filter_persons ontology)).
  set (edges0 := data_processor.links c).
  assert (Enodes : data_processor.nodes c
                   = map (data_processor.node_stats nodes0 edges0) nodes0) by reflexivity.
  rewrite Enodes in Hn. apply list_elem_of_fmap in Hn as (node & -> & Hnode).
  destruct (node_stats_character nodes0 edges0 node s Hs) as (e & He & Hinc & Hw & Hc).
  destruct (main_links_closed ontology network e He) as [Hsrc Htgt].
  rewrite <- create_nodes_json_ids in Hsrc, Htgt. fold nodes0 in Hsrc, Htgt.
  rewrite (proj2 (node_stats_total nodes0 edges0 node)).
  assert (Hfind : forall pid, pid ∈ map data_processor.id nodes0 ->
            exists m, m ∈ data_processor.nodes c /\
              data_processor.partner_name nodes0 pid
              = data_processor.label (data_processor.stat_node m) /\
              data_processor.id (data_processor.stat_node m) = pid).
  { intros pid Hpid.
    destruct (partner_name_found nodes0 pid Hpid) as (before & n' & after & E & Eid & _ & El).
    exists (data_processor.node_stats nodes0 edges0 n').
    rewrite (proj2 (node_stats_total nodes0 edges0 n')).
    split; [|split; [exact El|exact Eid]].
    rewrite Enodes. apply list_elem_of_fmap. exists n'. split; [reflexivity|].
    rewrite E. apply elem_of_app. right. left. }
  destruct (decide (data_processor.link_source e = data_processor.id node)) as [Es|Es].
  - destruct (Hfind _ Htgt) as (m & Hm & El & Eid).
    exists m, e. split; [exact Hm|]. split; [exact He|].
    split; [rewrite Hc; exact El|]. split; [exact Hw|]. left. auto.
  - destruct (Hfind _ Hsrc) as (m & Hm & El & Eid).
    exists m, e. split; [exact Hm|]. split; [exact He|].
    split; [rewrite Hc; exact El|]. split; [exact Hw|]. right.
    destruct Hinc as [Hinc|Hinc]; [contradiction|auto].
Qed.

(** X15.  The two scripts together.  On the graph [data_processor.py]
    writes, [main] of [calculate_positions.py] never stops on a missing
    node; it returns [0] exactly when there is at least one person, at least
    one link, and the largest link weight is not zero, and [1] otherwise. *)
Theorem positions_of_processed_graph
    (sample : nat -> Vec3)
    (ontology : list data_processor.OntologyRow)
    (network : list data_processor.NetworkRow) :
  let c := data_processor.main ontology network in
  let accepted :=
    data_processor.nodes c <> [] /\ data_processor.links c <> [] /\
    data_processor.max_edge_weight c <> 0%Z in
  main_report sample (loaded_nodes c) (loaded_edges c) <> CaughtStopIteration /\
  (accepted -> main sample (loaded_nodes c) (loaded_edges c) = Some 0%Z) /\
  (~ accepted -> main sample (loaded_nodes c) (loaded_edges c) = Some 1%Z).
Proof.
  intros c accepted.
  pose proof (main_edges_resolvable ontology network) as Hall. fold c in Hall.
  pose proof (proj1 (retained_all _ _ Hall)) as Hw.
  assert (Hn : loaded_nodes c = [] <-> data_processor.nodes c = []).
  { unfold loaded_nodes. destruct (data_processor.nodes c); simpl; split; congruence. }
  assert (He : loaded_edges c = [] <-> data_processor.links c = []).
  { unfold loaded_edges. destruct (data_processor.links c); simpl; split; congruence. }
  assert (Hmax : data_processor.links c <> [] ->
                 max_of (retained (loaded_nodes c) (loaded_edges c)).*2
                 = IZR (data_processor.max_edge_weight c)).
  { intros Hl. rewrite Hw. apply max_of_loaded_edges. exact Hl. }
  unfold main, accepted.
  destruct (main_report_cases sample (loaded_nodes c) (loaded_edges c))
    as [[H E]|[(_ & _ & Hall' & _)|[(Hn' & He' & E)|(Hn' & Hm & _ & He' & out & r & _ & _ & _ & E & _)]]];
    try contradiction; rewrite E.
  - split; [discriminate|]. split; [|reflexivity].
    intros (Hnodes & Hlinks & Hmw). exfalso. destruct H as [H|H].
    + apply Hnodes, Hn, H.
    + rewrite (Hmax Hlinks) in H. apply eq_IZR in H. contradiction.
  - split; [discriminate|]. split; [|reflexivity].
    intros (_ & Hlinks & _). exfalso. apply Hlinks, He, He'.
  - split; [discriminate|]. split; [reflexivity|].
    intros Hna. exfalso. apply Hna.
    assert (Hlinks : data_processor.links c <> []) by (intros Hl; apply He', He, Hl).
    split; [intros Hz; apply Hn', Hn, Hz|]. split; [exact Hlinks|].
    intros Hz. apply Hm. rewrite (Hmax Hlinks), Hz. reflexivity.
Qed.

(** X16.  The layout as [main] runs it (500 iterations, then the range of
    15).  With at least one node and a non-zero largest retained weight it
    returns one position per node, in node order, and every coordinate lies
    in [[-15, 15]]. *)
Theorem layout_contract
    (sample : nat -> Vec3) (nodes : list Node) (edges : list Edge) :
  nodes <> [] -> max_of (resolve_edges (id_to_idx nodes) edges).2 <> 0%R ->
  exists positions out,
    force_directed_3d sample nodes edges 500 = Ok positions /\
    normalize_positions positions 15 = Ok out /\
    layout sample nodes edges = Ok out /\
    length out = length nodes /\
    forall i c, i < length nodes ->
      c ∈ [vx (out !!! i); vy (out !!! i); vz (out !!! i)] ->
      (- 15 <= c <= 15)%R.
Proof.
  intros Hn Hm. rewrite resolve_edges_retained in Hm. cbn [snd] in Hm.
  destruct (layout_bounded sample nodes edges Hn Hm) as (ps & out & E1 & E2 & E3 & L & Hb).
  exists ps, out. split; [exact E1|]. split; [exact E3|]. split; [exact E2|].
  split; [exact L|].
  intros i c Hi Hc. apply Hb. apply (coords_of_row (out !!! i)); [|exact Hc].
  apply list_elem_of_lookup. exists i. apply list_lookup_lookup_total_lt. lia.
Qed.

Lemma layout_contract_witness :
  exists positions out,
    force_directed_3d (fun _ => mkVec 1 2 3) [mkNode "a"; mkNode "b"]
                      [mkEdge "a" "b" 5] 500 = Ok positions /\
    normalize_positions positions 15 = Ok out.
Proof.
  destruct (layout_contract (fun _ => mkVec 1 2 3) [mkNode "a"; mkNode "b"]
              [mkEdge "a" "b" 5]) as (ps & out & E1 & E2 & _).
  - discriminate.
  - change (max_of [5%R] <> 0%R). simpl. lra.
  - exists ps, out. split; [exact E1|exact E2].
Defined.

(** X17.  A collapsed cloud never opens.  When all initial positions
    coincide (all normal draws equal), no pair has a positive distance, every
    guard skips, and the run returns the initial positions unchanged,
    whatever the edges and the number of iterations; only the temperature
    cools. *)
Theorem collapsed_cloud_stays_collapsed
    (sample : nat -> Vec3) (nodes : list Node) (edges : list Edge) (iterations : Z) :
  (forall a b, sample a = sample b) ->
  nodes <> [] -> max_of (resolve_edges (id_to_idx nodes) edges).2 <> 0%R ->
  simulate sample nodes edges iterations
  = Ok (initial_positions sample (length nodes),
        (initial_temperature * 0.98 ^ Z.to_nat iterations)%R) /\
  force_directed_3d sample nodes edges iterations
  = Ok (initial_positions sample (length nodes)) /\
  initial_positions sample (length nodes)
  = replicate (length nodes) (vscale (sample 0) 5).
Proof.
  intros Hs Hn Hm. rewrite resolve_edges_retained in Hm. cbn [snd] in Hm.
  pose proof (simulate_collapsed sample nodes edges iterations Hs Hn Hm) as E.
  split; [exact E|]. split; [unfold force_directed_3d; rewrite E; reflexivity|].
  unfold initial_positions. generalize (length nodes) as n. intros n.
  apply list_eq. intros i.
  change (map ?f (seq 0 n)) with (f <$> seq 0 n). rewrite list_lookup_fmap.
  destruct (decide (i < n)) as [Hi|Hi].
  - rewrite lookup_seq_lt by exact Hi. rewrite lookup_replicate_2 by exact Hi.
    simpl. rewrite (Hs i 0). reflexivity.
  - rewrite lookup_seq_ge by lia. simpl. symmetry. apply lookup_replicate_None. lia.
Qed.

Lemma collapsed_cloud_stays_collapsed_witness :
  force_directed_3d (fun _ => mkVec 1 2 3) [mkNode "a"; mkNode "b"]
                    [mkEdge "a" "b" 5] 500
  = Ok (initial_positions (fun _ => mkVec 1 2 3) 2).
Proof.
  apply (collapsed_cloud_stays_collapsed (fun _ => mkVec 1 2 3)
           [mkNode "a"; mkNode "b"] [mkEdge "a" "b" 5] 500).
  - reflexivity.
  - discriminate.
  - change (max_of [5%R] <> 0%R). simpl. lra.
Defined.

(** X18.  The [max_edge_weight] [data_processor.py] records is [1] when
    there is no link; otherwise it is the weight of one of the links and no
    link is heavier. *)
Theorem max_edge_weight_is_largest
    (ontology : list data_processor.OntologyRow)
    (network : list data_processor.NetworkRow) :
  let c := data_processor.main ontology network in
  (data_processor.links c = [] -> data_processor.max_edge_weight c = 1%Z) /\
  (data_processor.links c <> [] ->
   (exists e, e ∈ data_processor.links c /\
              data_processor.max_edge_weight c = data_processor.link_weight e) /\
   forall e, e ∈ data_processor.links c ->
     (data_processor.link_weight e <= data_processor.max_edge_weight c)%Z).
Proof.
  intros c.
  change (data_processor.max_edge_weight c)
    with (data_processor.max_weight (data_processor.links c)).
  generalize (data_processor.links c) as edges. intros edges.
  split; [intros ->; reflexivity|].
  destruct edges as [|e0 rest]; [congruence|]. intros _.
  unfold data_processor.max_weight.
  assert (G : forall (ws : list Z) w,
            (w <= fold_left Z.max ws w)%Z /\
            (forall x, x ∈ ws -> (x <= fold_left Z.max ws w)%Z) /\
            fold_left Z.max ws w ∈ w :: ws).
  { induction ws as [|y ws IH]; intros w; simpl.
    - split; [lia|]. split; [intros x Hx; inversion Hx|left].
    - destruct (IH (Z.max w y)) as (H1 & H2 & H3).
      split; [lia|]. split.
      + intros x Hx. apply elem_of_cons in Hx as [->|Hx]; [lia|apply H2, Hx].
      + apply elem_of_cons in H3 as [E|H3].
        * rewrite E. destruct (Z.max_spec w y) as [[_ ->]|[_ ->]]; [right; left|left].
        * right; right; exact H3. }
  destruct (G (map data_processor.link_weight rest) (data_processor.link_weight e0))
    as (H1 & H2 & H3).
  split.
  - change (data_processor.link_weight e0 :: map data_processor.link_weight rest)
      with (map data_processor.link_weight (e0 :: rest)) in H3.
    apply list_elem_of_fmap in H3 as (e & E & He). exists e. auto.
  - intros e He. apply elem_of_cons in He as [->|He]; [exact H1|].
    apply H2. apply list_elem_of_fmap. exists e. auto.
Qed.

(** X19.  Two nodes and no edge.  One step moves two nodes at distance
    [d > 0] apart along the line that joins them: their distance grows by
    exactly [2 * min(k * k / d, temperature)] and their midpoint stays
    where it is. *)
Theorem two_nodes_repel (k : R) (p q : Vec3) (temperature : R) :
  k <> 0%R -> (0 < norm (vsub p q))%R -> (0 <= temperature)%R ->
  exists p' q',
    step k 2 [] [] ([p; q], temperature) = Ok ([p'; q'], (temperature * 0.98)%R) /\
    norm (vsub p' q')
    = (norm (vsub p q) + 2 * Rmin (k * k / norm (vsub p q)) temperature)%R /\
    vadd p' q' = vadd p q.
Proof.
  intros Hk Hd HT. eexists. eexists.
  split; [apply step_two_nodes; assumption|].
  set (d := norm (vsub p q)) in *.
  set (m := Rmin (k * k / d) temperature).
  assert (Hf : (0 < k * k / d)%R).
  { apply Rdiv_lt_0_compat; [|exact Hd].
    destruct (Rtotal_order k 0) as [H|[H|H]]; [nra|contradiction|nra]. }
  assert (Hm : (0 <= m)%R) by (unfold m; apply Rmin_glb; lra).
  split; [|vec].
  replace (vsub (vadd p (vscale (vscale (vsub p q) (/ d)) m))
                (vadd q (vsub vzero (vscale (vscale (vsub p q) (/ d)) m))))
    with (vscale (vsub p q) (1 + 2 * m / d)) by (apply vec_ext; simpl; field; lra).
  rewrite norm_vscale. fold d.
  assert (Hpos : (0 <= 2 * m / d)%R).
  { apply Rmult_le_pos; [lra|]. left. apply Rinv_0_lt_compat. exact Hd. }
  rewrite Rabs_pos_eq by lra. field. lra.
Qed.

Lemma two_nodes_repel_witness :
  exists p' q',
    step 1 2 [] [] ([mkVec 3 4 0; vzero], 10%R) = Ok ([p'; q'], (10 * 0.98)%R).
Proof.
  assert (Hd : (0 < norm (vsub (mkVec 3 4 0) vzero))%R).
  { change (vsub (mkVec 3 4 0) vzero) with (mkVec (3 - 0) (4 - 0) (0 - 0)).
    rewrite (norm_3_4_0 (3 - 0) (4 - 0) (0 - 0)) by ring. lra. }
  destruct (two_nodes_repel 1 (mkVec 3 4 0) vzero 10) as (p' & q' & E & _).
  - lra.
  - exact Hd.
  - lra.
  - exists p', q'. exact E.
Defined.
